(** * The comparison matrix of NeuroLit AI

    A shallow embedding of [src/components/ComparisonView.tsx] (with the
    types of [src/types.ts]): the single-cell update, the transposition
    and the sort of the rendered table, the CSV export and the editable
    cell with its viewing-mode rendering.

    Conventions.
    - A JavaScript string is the list of its UTF-16 code units.
    - [Record<string, string>] is a finite map; the code reads the key set
      of such an object only through [includes] and [length], so the
      enumeration order of [Object.keys] plays no role.  Document ids are
      UUIDs; keys that name a property of [Object.prototype] are outside
      the model.
    - React state is passed explicitly: a handler takes the values it
      closes over and returns the value it installs. *)

From Stdlib Require Import ZArith String Ascii.
From stdpp Require Import gmap list sorting.

Local Open Scope string_scope.
Local Open Scope Z_scope.
Local Open Scope list_scope.

(** ** Strings *)

Abbreviation jsstring := (list N).

(** The code units of an ASCII literal. *)
Definition units (s : string) : jsstring :=
  (fun a : ascii => N_of_ascii a) <$> list_ascii_of_string s.

Definition DQUOTE : N := 34.
Definition STAR : N := 42.
Definition COMMA : N := 44.
Definition HYPHEN : N := 45.
Definition LF : N := 10.
Definition BULLET : N := 8226.

(** ** Data model ([src/types.ts]) *)

Record PaperAnalysis := {
  id : jsstring;
  fileName : jsstring;
  title : jsstring;
  summary : jsstring;
  majorFindings : list jsstring;
  methodology : jsstring;
  researchGaps : list jsstring;
  keywords : list jsstring;
  uploadDate : Z
}.

Record ComparisonPoint := {
  criteria : jsstring;
  paperInsights : gmap jsstring jsstring
}.

(** [point.paperInsights?.[paperId]] with the empty string as fallback:
    a missing key and an empty text both read as the empty string. *)
Definition insightOf (point : ComparisonPoint) (paperId : jsstring) : jsstring :=
  default [] (paperInsights point !! paperId).

(** ** MatrixStore: [updateCell] *)

(** [comparisonResult] is [ComparisonPoint[] | null]; the function returns
    the state after the call: untouched on the early return, otherwise
    the array handed to [setComparisonResult]. *)
Definition updateCell (comparisonResult : option (list ComparisonPoint))
    (paperId criteriaName newValue : jsstring) : option (list ComparisonPoint) :=
  match comparisonResult with
  | None => None
  | Some points =>
      Some ((fun point =>
               if decide (criteria point = criteriaName)
               then {| criteria := criteria point;
                       paperInsights := <[paperId := newValue]> (paperInsights point) |}
               else point) <$> points)
  end.

(** ** The matrix in the JavaScript heap

    [updateCell] once more, over a heap of objects: an array holds
    references to point objects, a point object holds its name and a
    reference to its insight object.  [map] allocates the new array, the
    object literal and the spread allocate a new point and a new insight
    object for a dimension that is hit, and a dimension that is missed
    is passed on by reference. *)
Module Heap.

Abbreviation loc := positive.

Inductive object :=
  | ArrayObj (items : list loc)
  | PointObj (name : jsstring) (insights : loc)
  | RecordObj (fields : gmap jsstring jsstring).

Definition alloc (h : gmap loc object) (o : object) : gmap loc object * loc :=
  let l := fresh (dom h) in (<[l := o]> h, l).

(** The callback of [comparisonResult.map]. *)
Definition mapPoint (paperId criteriaName newValue : jsstring)
    (h : gmap loc object) (point : loc) : option (gmap loc object * loc) :=
  match h !! point with
  | Some (PointObj name insights) =>
      if decide (name = criteriaName) then
        match h !! insights with
        | Some (RecordObj fields) =>
            let (h1, insights') :=
              alloc h (RecordObj (<[paperId := newValue]> fields)) in
            Some (alloc h1 (PointObj name insights'))
        | _ => None
        end
      else Some (h, point)
  | _ => None
  end.

Fixpoint mapPoints (paperId criteriaName newValue : jsstring)
    (h : gmap loc object) (points : list loc)
    : option (gmap loc object * list loc) :=
  match points with
  | [] => Some (h, [])
  | point :: rest =>
      match mapPoint paperId criteriaName newValue h point with
      | Some (h1, point') =>
          match mapPoints paperId criteriaName newValue h1 rest with
          | Some (h2, rest') => Some (h2, point' :: rest')
          | None => None
          end
      | None => None
      end
  end.

(** The heap and the reference held by the state after the call; [None]
    when the heap does not hold a matrix at the reference. *)
Definition updateCell (h : gmap loc object) (comparisonResult : option loc)
    (paperId criteriaName newValue : jsstring)
    : option (gmap loc object * option loc) :=
  match comparisonResult with
  | None => Some (h, None)
  | Some array =>
      match h !! array with
      | Some (ArrayObj points) =>
          match mapPoints paperId criteriaName newValue h points with
          | Some (h1, points') =>
              let (h2, newResult) := alloc h1 (ArrayObj points') in
              Some (h2, Some newResult)
          | None => None
          end
      | _ => None
      end
  end.

(** The value a reference stands for. *)
Definition readPoint (h : gmap loc object) (point : loc) : option ComparisonPoint :=
  match h !! point with
  | Some (PointObj name insights) =>
      match h !! insights with
      | Some (RecordObj fields) =>
          Some {| criteria := name; paperInsights := fields |}
      | _ => None
      end
  | _ => None
  end.

Definition readMatrix (h : gmap loc object) (array : loc)
    : option (list ComparisonPoint) :=
  match h !! array with
  | Some (ArrayObj points) => mapM (readPoint h) points
  | _ => None
  end.

(** A matrix laid out in the heap, as parsing the response does. *)
Definition storePoint (h : gmap loc object) (c : ComparisonPoint)
    : gmap loc object * loc :=
  let (h1, insights) := alloc h (RecordObj (paperInsights c)) in
  alloc h1 (PointObj (criteria c) insights).

Fixpoint storePoints (h : gmap loc object) (points : list ComparisonPoint)
    : gmap loc object * list loc :=
  match points with
  | [] => (h, [])
  | c :: rest =>
      let (h1, l) := storePoint h c in
      let (h2, ls) := storePoints h1 rest in
      (h2, l :: ls)
  end.

Definition storeMatrix (h : gmap loc object) (points : list ComparisonPoint)
    : gmap loc object * loc :=
  let (h1, ls) := storePoints h points in
  alloc h1 (ArrayObj ls).

End Heap.

(** ** Built-ins of the JavaScript host *)

(** [s.startsWith(prefix)] *)
Fixpoint startsWith (s prefix : jsstring) {struct prefix} : bool :=
  match prefix, s with
  | [], _ => true
  | _ :: _, [] => false
  | p :: prefix', c :: s' => (c =? p)%N && startsWith s' prefix'
  end.

(** [s.endsWith(suffix)] *)
Definition endsWith (s suffix : jsstring) : bool :=
  startsWith (reverse s) (reverse suffix).

(** [s.includes(sub)] *)
Fixpoint includes (s sub : jsstring) : bool :=
  startsWith s sub ||
  match s with
  | [] => false
  | _ :: s' => includes s' sub
  end.

(** [s.split(sep)] for a separator of one code unit. *)
Fixpoint split (sep : N) (s : jsstring) : list jsstring :=
  match s with
  | [] => [[]]
  | c :: s' =>
      if (c =? sep)%N then [] :: split sep s'
      else match split sep s' with
           | piece :: pieces => (c :: piece) :: pieces
           | [] => [[c]]
           end
  end.

(** [a.join(sep)] *)
Fixpoint join (sep : jsstring) (a : list jsstring) : jsstring :=
  match a with
  | [] => []
  | x :: a' =>
      match a' with
      | [] => x
      | _ :: _ => x ++ sep ++ join sep a'
      end
  end.

(** Global replace of one literal code unit [c] by the text [by_]. *)
Definition replaceUnit (c : N) (by_ : jsstring) (s : jsstring) : jsstring :=
  s ≫= (fun x => if (x =? c)%N then by_ else [x]).

(** The global replace of two consecutive stars by nothing: the
    occurrences are found left to right and do not overlap. *)
Fixpoint removeDoubleStar (s : jsstring) : jsstring :=
  match s with
  | [] => []
  | c :: s' =>
      match s' with
      | c' :: s'' =>
          if (c =? STAR)%N && (c' =? STAR)%N then removeDoubleStar s''
          else c :: removeDoubleStar s'
      | [] => [c]
      end
  end.

(** ECMAScript LineTerminator and WhiteSpace code units. *)
Definition isLineTerminator (c : N) : bool :=
  bool_decide (c ∈ [10; 13; 8232; 8233]%N).

Definition isWhiteSpace (c : N) : bool :=
  bool_decide (c ∈ [9; 11; 12; 32; 160; 5760; 8192; 8193; 8194; 8195; 8196;
                    8197; 8198; 8199; 8200; 8201; 8202; 8239; 8287; 12288;
                    65279]%N).

Fixpoint trimStart (s : jsstring) : jsstring :=
  match s with
  | c :: s' => if isWhiteSpace c || isLineTerminator c then trimStart s' else s
  | [] => []
  end.

(** [s.trim()] *)
Definition trim (s : jsstring) : jsstring :=
  reverse (trimStart (reverse (trimStart s))).

(** [s.slice(start, end)], negative indices counting from the end. *)
Definition slice (s : jsstring) (start end_ : Z) : jsstring :=
  let len := Z.of_nat (length s) in
  let from := if start <? 0 then Z.max (len + start) 0 else Z.min start len in
  let to := if end_ <? 0 then Z.max (len + end_) 0 else Z.min end_ len in
  take (Z.to_nat (to - from)) (drop (Z.to_nat from) s).

(** [Object.keys(o)]; only membership and emptiness are read. *)
Definition Object_keys (o : gmap jsstring jsstring) : list jsstring :=
  elements (dom o).

(** [Array.prototype.sort(compareFn)] is a stable sort.  For a consistent
    comparator its result is the one stable sorted arrangement of the
    array, computed here by insertion from the right. *)
Fixpoint insertSorted {A} (compareFn : A → A → Z) (x : A) (l : list A) : list A :=
  match l with
  | [] => [x]
  | y :: l' => if 0 <? compareFn x y then y :: insertSorted compareFn x l' else x :: l
  end.

Definition sort {A} (compareFn : A → A → Z) (l : list A) : list A :=
  foldr (insertSorted compareFn) [] l.

(** The order a comparator induces: [a] does not come after [b], and
    [a] and [b] are tied. *)
Definition notAfter {A} (compareFn : A → A → Z) (a b : A) : Prop :=
  compareFn a b ≤ 0.

Definition tied {A} (compareFn : A → A → Z) (a b : A) : Prop :=
  compareFn a b = 0.

#[global] Instance tied_dec {A} (compareFn : A → A → Z) a b :
  Decision (tied compareFn a b).
Proof. unfold tied. apply _. Defined.

(** ** Transposer and Sorter *)

Definition activeResultIds (comparisonResult : option (list ComparisonPoint))
    : list jsstring :=
  match comparisonResult with
  | Some (first :: _) => Object_keys (paperInsights first)
  | _ => []
  end.

(** [papers.filter(p => activeResultIds.includes(p.id))] *)
Definition transposed (papers : list PaperAnalysis)
    (comparisonResult : option (list ComparisonPoint)) : list PaperAnalysis :=
  filter (fun p => id p ∈ activeResultIds comparisonResult) papers.

Section Sorter.
(** [String.prototype.toLowerCase] and [String.prototype.localeCompare]
    follow the Unicode tables and the collation of the host's locale;
    the component is modelled over both. *)
Variable toLowerCase : jsstring → jsstring.
Variable localeCompare : jsstring → jsstring → Z.

Definition isModelCriteria (c : ComparisonPoint) : bool :=
  includes (toLowerCase (criteria c)) (units "model")
  || includes (toLowerCase (criteria c)) (units "architecture").

(** [comparisonResult.find(c => ...)] *)
Definition modelCriteria (points : list ComparisonPoint)
    : option ComparisonPoint :=
  snd <$> list_find (fun c => isModelCriteria c = true) points.

Definition compareByModel (modelCriteria : ComparisonPoint)
    (a b : PaperAnalysis) : Z :=
  let modelA := toLowerCase (insightOf modelCriteria (id a)) in
  let modelB := toLowerCase (insightOf modelCriteria (id b)) in
  localeCompare modelA modelB.

Definition tablePapers (papers : list PaperAnalysis)
    (comparisonResult : option (list ComparisonPoint)) : list PaperAnalysis :=
  let tablePapers := transposed papers comparisonResult in
  match comparisonResult with
  | Some points =>
      match modelCriteria points with
      | Some mc => sort (compareByModel mc) tablePapers
      | None => tablePapers
      end
  | None => tablePapers
  end.
End Sorter.

(** ** CsvExporter: [downloadCSV] *)

(** A CSV field: the text between two double quotes, each double quote
    of the text written twice (the template literal of the data rows). *)
Definition quoted (s : jsstring) : jsstring :=
  [DQUOTE] ++ replaceUnit DQUOTE [DQUOTE; DQUOTE] s ++ [DQUOTE].

Definition exportedInsight (c : ComparisonPoint) (p : PaperAnalysis) : jsstring :=
  let text := replaceUnit HYPHEN [BULLET] (removeDoubleStar (insightOf c (id p))) in
  quoted text.

Definition csvRow (points : list ComparisonPoint) (p : PaperAnalysis) : jsstring :=
  join [COMMA]
    (quoted (title p) :: quoted (fileName p)
       :: ((fun c => exportedInsight c p) <$> points)).

Definition csvHeaders (points : list ComparisonPoint) : list jsstring :=
  units "Paper Title" :: units "Authors/Year (Ref)" :: (criteria <$> points).

Definition csvPrefix : jsstring := units "data:text/csv;charset=utf-8,".

(** The papers whose rows are written. *)
Definition relevantPapers (papers : list PaperAnalysis)
    (points : list ComparisonPoint) : list PaperAnalysis :=
  let paperIdsInResult :=
    Object_keys (match points with first :: _ => paperInsights first | [] => ∅ end) in
  filter (fun p => id p ∈ paperIdsInResult) papers.

(** The text of the file: the joined headers, then the rows, joined by
    line feeds. *)
Definition csvText (papers : list PaperAnalysis)
    (points : list ComparisonPoint) : jsstring :=
  join [LF] (join [COMMA] (csvHeaders points)
               :: (csvRow points <$> relevantPapers papers points)).

(** What one click on the download button does: the new value of the matrix
    state and the [csvContent] handed to the browser, [None] when the
    handler returns before building it.  (What the handler does with
    it, [encodeURI] and the anchor element, is [Page.downloadCSV].) *)
Definition downloadCSV (papers : list PaperAnalysis)
    (comparisonResult : option (list ComparisonPoint))
    (selectedIds : gset jsstring)
    : option (list ComparisonPoint) * option jsstring :=
  match comparisonResult with
  | None => (comparisonResult, None)
  | Some points =>
      if decide (size selectedIds = 0%nat) then (comparisonResult, None)
      else (comparisonResult,
            Some (csvPrefix ++ csvText papers points))
  end.

(** ** CellEditor: [EditableCell] *)

(** The callbacks a handler of the cell invokes, in order. *)
Inductive call :=
  | SetIsEditing (val : bool)
  | SetValue (val : jsstring)
  | OnSave (val : jsstring).

Definition handleBlur (value : jsstring) : list call :=
  [SetIsEditing false; OnSave value].

Definition handleKeyDown (initialValue key : jsstring) : list call :=
  if decide (key = units "Escape")
  then [SetIsEditing false; SetValue initialValue]
  else [].

Definition onChange (targetValue : jsstring) : list call :=
  [SetValue targetValue].

(** A cell of the table as [ComparisonView] mounts it: [value] is the
    cell's local state, [store] the lifted matrix state.  The parent
    passes [onSave = newVal => updateCell(paper.id, point.criteria, newVal)]
    and a [setIsEditing] that does nothing.  (It also passes a constant
    [isEditing = false], so the textarea carrying the handlers is not
    mounted by this parent; the handlers are modelled as the component
    defines them.) *)
Record cell := { value : jsstring; store : option (list ComparisonPoint) }.

Definition perform (paperId criteriaName : jsstring) (w : cell) (c : call) : cell :=
  match c with
  | SetIsEditing _ => w
  | SetValue v => {| value := v; store := store w |}
  | OnSave v =>
      {| value := value w; store := updateCell (store w) paperId criteriaName v |}
  end.

Definition performAll (paperId criteriaName : jsstring) (w : cell)
    (calls : list call) : cell :=
  foldl (perform paperId criteriaName) w calls.

(** [initialValue] of the cell in column [idx] of the row of [paperId]. *)
Definition initialValue (comparisonResult : option (list ComparisonPoint))
    (idx : nat) (paperId : jsstring) : jsstring :=
  match comparisonResult ≫= (fun points => points !! idx) with
  | Some point => insightOf point paperId
  | None => []
  end.

(** *** Viewing mode: [renderContent] *)

Inductive inline :=
  | Strong (text : jsstring)
  | Span (text : jsstring).

Inductive lineNode :=
  | BulletItem (content : list inline)
  | Paragraph (content : list inline).

Inductive view :=
  | Placeholder
  | Lines (nodes : list lineNode).

(** After an opening pair of stars: the shortest run of units other than
    line terminators up to the next pair of stars; the run consumed by
    the lazy dot-star and what follows the closing pair. *)
Fixpoint lazyUntilClose (s : jsstring) : option (jsstring * jsstring) :=
  match s with
  | [] => None
  | c :: s' =>
      if startsWith s [STAR; STAR] then Some ([], drop 1 s')
      else if isLineTerminator c then None
      else match lazyUntilClose s' with
           | Some (body, rest) => Some (c :: body, rest)
           | None => None
           end
  end.

(** A match of the bold pattern (two stars, lazy dot-star, two stars) at
    the head of [s]: the matched text and the rest. *)
Definition matchBold (s : jsstring) : option (jsstring * jsstring) :=
  if startsWith s [STAR; STAR] then
    match lazyUntilClose (drop 2 s) with
    | Some (body, rest) => Some ([STAR; STAR] ++ body ++ [STAR; STAR], rest)
    | None => None
    end
  else None.

(** [split] with the bold pattern as a capturing group: the pieces
    between the matches and the captured matches, alternating.  [pending] holds, reversed, the piece
    read since the last match. *)
Fixpoint splitBoldFrom (fuel : nat) (pending s : jsstring) : list jsstring :=
  match fuel, s with
  | _, [] => [reverse pending]
  | O, _ => [reverse pending ++ s]
  | S fuel', c :: s' =>
      match matchBold s with
      | Some (m, rest) => reverse pending :: m :: splitBoldFrom fuel' [] rest
      | None => splitBoldFrom fuel' (c :: pending) s'
      end
  end.

Definition splitBold (s : jsstring) : list jsstring :=
  splitBoldFrom (length s) [] s.

Definition renderPart (part : jsstring) : inline :=
  if startsWith part [STAR; STAR] && endsWith part [STAR; STAR]
  then Strong (slice part 2 (-2))
  else Span part.

Definition renderLine (line : jsstring) : lineNode :=
  let isBullet :=
    startsWith (trim line) (units "- ") || startsWith (trim line) (units "* ") in
  let cleanLine := if isBullet then drop 2 (trim line) else line in
  let parts := splitBold cleanLine in
  if isBullet then BulletItem (renderPart <$> parts)
  else Paragraph (renderPart <$> parts).

Definition renderContent (value : jsstring) : view :=
  match value with
  | [] => Placeholder
  | _ :: _ =>
      let lines := filter (fun line => trim line ≠ []) (split LF value) in
      Lines (renderLine <$> lines)
  end.

(** What [updateCell] does to one element of the array. *)
Definition updatePoint (paperId criteriaName newValue : jsstring)
    (point : ComparisonPoint) : ComparisonPoint :=
  if decide (criteria point = criteriaName)
  then {| criteria := criteria point;
          paperInsights := <[paperId := newValue]> (paperInsights point) |}
  else point.

(** ** Vocabulary of the specification *)

(** The active document set. *)
Definition activeDocumentIds (comparisonResult : option (list ComparisonPoint))
    : gset jsstring :=
  list_to_set (activeResultIds comparisonResult).

(** [sub] occurs in [s] as a contiguous run. *)
Definition containsSubstring (s sub : jsstring) : Prop :=
  ∃ before after, s = before ++ sub ++ after.

Section SorterVocabulary.
Variable toLowerCase : jsstring → jsstring.

(** The name of [c], lowercased, contains "model" or "architecture". *)
Definition namesModel (c : ComparisonPoint) : Prop :=
  containsSubstring (toLowerCase (criteria c)) (units "model")
  ∨ containsSubstring (toLowerCase (criteria c)) (units "architecture").

(** The text a document is sorted by under the dimension [mc]. *)
Definition sortKey (mc : ComparisonPoint) (p : PaperAnalysis) : jsstring :=
  toLowerCase (insightOf mc (id p)).
End SorterVocabulary.

(** ** A host for the examples

    Case folding of the ASCII letters and the order of the code units:
    what [toLowerCase] and [localeCompare] do on lowercase ASCII words. *)
Definition asciiLower (s : jsstring) : jsstring :=
  (fun c => if (65 <=? c)%N && (c <=? 90)%N then (c + 32)%N else c) <$> s.

Fixpoint compareUnits (a b : jsstring) : Z :=
  match a, b with
  | [], [] => 0
  | [], _ :: _ => -1
  | _ :: _, [] => 1
  | x :: a', y :: b' =>
      match (x ?= y)%N with
      | Lt => -1
      | Gt => 1
      | Eq => compareUnits a' b'
      end
  end.

(** *** Sample data *)

Definition mkPaper (i f t : string) : PaperAnalysis :=
  {| id := units i; fileName := units f; title := units t; summary := [];
     majorFindings := []; methodology := []; researchGaps := [];
     keywords := []; uploadDate := 0 |}.

Definition mkPoint (c : string) (cells : list (string * string)) : ComparisonPoint :=
  {| criteria := units c;
     paperInsights := list_to_map ((fun kv => (units kv.1, units kv.2)) <$> cells) |}.

Definition sampleMatrix : list ComparisonPoint :=
  [ mkPoint "Study Design" [("p1", "RCT"); ("p2", "Cohort")];
    mkPoint "Model/Architecture/Tools Used" [("p1", "MRI"); ("p2", "Cox")];
    mkPoint "Key Findings" [("p1", "x"); ("p2", "y")] ].

Definition samplePapers : list PaperAnalysis :=
  [ mkPaper "p3" "c.pdf" "Third"; mkPaper "p1" "a.pdf" "First";
    mkPaper "p2" "b.pdf" "Second" ].

(** One dimension whose name holds a comma, one paper whose insight
    holds double quotes and a hyphen: He said 'hi' - ok, with double
    quotes in place of the single ones. *)
Definition quotedInsight : jsstring :=
  units "He said " ++ [DQUOTE] ++ units "hi" ++ [DQUOTE] ++ units " - ok".

Definition commaPoint : ComparisonPoint :=
  {| criteria := units "Methods, Tools";
     paperInsights := {[ units "p1" := quotedInsight ]} |}.

Definition commaMatrix : list ComparisonPoint := [commaPoint].

(** A matrix whose first dimension is keyed by an id no paper has. *)
Definition strayMatrix : list ComparisonPoint :=
  [ mkPoint "Study Design" [("p9", "RCT")] ].

Definition abcMatrix : list ComparisonPoint :=
  [ mkPoint "Key Findings" [("p1", "abc")] ].

(** The library in an order that is already the sorted one. *)
Definition sortedPapers : list PaperAnalysis :=
  [ mkPaper "p2" "b.pdf" "Second"; mkPaper "p1" "a.pdf" "First";
    mkPaper "p3" "c.pdf" "Third" ].

Definition dupMatrix : list ComparisonPoint :=
  [ mkPoint "Model" [("p1", "MRI")];
    mkPoint "Cohort" [("p1", "n=40")];
    mkPoint "Model" [("p1", "PET")] ].

(** ** The rest of [ComparisonView] *)

(** [togglePaper]: a copy of the set with [id] removed when it is there
    and added when it is not. *)
Definition togglePaper (selectedIds : gset jsstring) (id : jsstring)
    : gset jsstring :=
  if decide (id ∈ selectedIds) then selectedIds ∖ {[ id ]}
  else {[ id ]} ∪ selectedIds.

(** The state that [handleCompare] reads and writes: the local state of
    the view and the matrix lifted to [App]. *)
Record viewState := {
  st_selectedIds : gset jsstring;
  st_isComparing : bool;
  st_error : option jsstring;
  st_comparisonResult : option (list ComparisonPoint)
}.

(** [handleCompare] up to its [await]: [None] when it returns at the
    guard, otherwise the state after the two setters and the papers
    handed to [comparePapers]. *)
Definition handleCompare_request (papers : list PaperAnalysis) (st : viewState)
    : option (viewState * list PaperAnalysis) :=
  if decide (size (st_selectedIds st) < 2)%nat then None
  else
    let selectedPapers := filter (fun p => id p ∈ st_selectedIds st) papers in
    Some ({| st_selectedIds := st_selectedIds st;
             st_isComparing := true;
             st_error := None;
             st_comparisonResult := st_comparisonResult st |},
          selectedPapers).

(** An error object as the handlers read it: its [JSON.stringify] text
    (the model covers the values that stringify to a text), and the
    fields [message], [status] and [code] when they hold a string, a
    string and a number. *)
Record jsError := {
  errorStr : jsstring;
  message : option jsstring;
  status : option jsstring;
  code : option Z
}.

(** [new Error(msg)]: the message is not enumerable, so the object is
    stringified as an empty object. *)
Definition newError (msg : jsstring) : jsError :=
  {| errorStr := units "{}"; message := Some msg; status := None; code := None |}.

(** [handleCompare] after the [await]: the [try] branch on a result, the
    [catch] branch on an error, [finally] in both. *)
Definition handleCompare_settle (st : viewState)
    (outcome : jsError + list ComparisonPoint) : viewState :=
  match outcome with
  | inr results =>
      {| st_selectedIds := st_selectedIds st;
         st_isComparing := false;
         st_error := st_error st;
         st_comparisonResult := Some results |}
  | inl err =>
      let shown :=
        match message err with
        | Some (c :: m) => c :: m
        | _ => units "Failed to generate comparison. Please check your connection and try again."
        end in
      {| st_selectedIds := st_selectedIds st;
         st_isComparing := false;
         st_error := Some shown;
         st_comparisonResult := st_comparisonResult st |}
  end.

(** ** [src/services/gemini.ts] *)

Definition regionMessage : jsstring :=
  units "Region Not Supported: Gemini 2.5 is currently restricted in your location. Please check your network or VPN settings.".

Definition networkMessage : jsstring :=
  units "Network Error: The file might be too large (limit 6MB) or the request timed out. Please try a smaller file.".

(** [handleGeminiError] always throws; the result is the error thrown. *)
Definition handleGeminiError (error : jsError) : jsError :=
  if includes (errorStr error) (units "Region not supported")
     || match message error with
        | Some m => includes m (units "Region not supported")
        | None => false
        end
     || bool_decide (status error = Some (units "PERMISSION_DENIED"))
     || bool_decide (code error = Some 403)
  then newError regionMessage
  else if includes (errorStr error) (units "xhr error")
          || bool_decide (code error = Some 500)
  then newError networkMessage
  else error.

(** What the request to the model came to: it was rejected with an
    error, or it resolved to a response whose [text] may be missing. *)
Inductive apiResult :=
  | ApiRejected (error : jsError)
  | ApiResolved (text : option jsstring).

Section Gemini.
(** [JSON.parse] on the response text: the error it throws or the value,
    taken for a matrix as the cast of the source does. *)
Variable JSON_parse : jsstring → jsError + list ComparisonPoint.

(** [comparePapers] from the point where the request has settled. *)
Definition comparePapers (response : apiResult)
    : jsError + list ComparisonPoint :=
  match response with
  | ApiRejected error => inl (handleGeminiError error)
  | ApiResolved text =>
      match text with
      | Some (c :: t) =>
          match JSON_parse (c :: t) with
          | inr results => inr results
          | inl error => inl (handleGeminiError error)
          end
      | _ => inl (handleGeminiError (newError (units "No response from Gemini")))
      end
  end.
End Gemini.

(** ** [App] *)

(** [handleAnalysisComplete]: the new paper goes to the front. *)
Definition handleAnalysisComplete (papers : list PaperAnalysis)
    (newPaper : PaperAnalysis) : list PaperAnalysis :=
  newPaper :: papers.

(** ** Reading a CSV row

    The reader's side of the format (RFC 4180), which the repository
    does not contain: a quoted field runs to the first double quote that
    is not followed by a second one, and two double quotes stand for
    one. *)
Fixpoint readQuoted (s : jsstring) : option (jsstring * jsstring) :=
  match s with
  | [] => None
  | c :: s' =>
      if (c =? DQUOTE)%N then
        match s' with
        | c' :: s'' =>
            if (c' =? DQUOTE)%N then
              match readQuoted s'' with
              | Some (text, rest) => Some (DQUOTE :: text, rest)
              | None => None
              end
            else Some ([], s')
        | [] => Some ([], [])
        end
      else
        match readQuoted s' with
        | Some (text, rest) => Some (c :: text, rest)
        | None => None
        end
  end.

Definition readField (s : jsstring) : option (jsstring * jsstring) :=
  match s with
  | c :: s' => if (c =? DQUOTE)%N then readQuoted s' else None
  | [] => None
  end.

Fixpoint readRowFrom (fuel : nat) (s : jsstring) : option (list jsstring) :=
  match fuel with
  | O => None
  | S fuel' =>
      match readField s with
      | Some (text, []) => Some [text]
      | Some (text, c :: rest) =>
          if (c =? COMMA)%N then
            match readRowFrom fuel' rest with
            | Some texts => Some (text :: texts)
            | None => None
            end
          else None
      | None => None
      end
  end.

Definition readRow (s : jsstring) : option (list jsstring) :=
  readRowFrom (length s) s.

(** The text of an insight as the export writes it, before quoting. *)
Definition normalizedInsight (c : ComparisonPoint) (p : PaperAnalysis) : jsstring :=
  replaceUnit HYPHEN [BULLET] (removeDoubleStar (insightOf c (id p))).

(** The line nodes a view shows. *)
Definition nodesOf (v : view) : list lineNode :=
  match v with
  | Placeholder => []
  | Lines nodes => nodes
  end.

(** ** [PaperAnalysisView]: the checks of [handleFileChange] *)

(** The fields of the [File] that the handler reads. *)
Record File := {
  file_name : jsstring;
  file_type : jsstring;
  file_size : Z
}.

Inductive fileDecision :=
  | NoFile
  | FileRejected (error : jsstring)
  | FileAccepted (mimeType : jsstring).

Definition MAX_SIZE_MB : Z := 6.

Section FileChecks.
Variable toLowerCase : jsstring → jsstring.
(** The size in megabytes with one decimal, [(size / 1024 / 1024).toFixed(1)],
    a floating point computation of the host. *)
Variable megabytes : Z → jsstring.

(** [handleFileChange] up to the point where the file is read: no file,
    the error set, or the MIME type with which the file is sent. *)
Definition handleFileChange (file : option File) : fileDecision :=
  match file with
  | None => NoFile
  | Some file =>
      if MAX_SIZE_MB * 1024 * 1024 <? file_size file then
        FileRejected
          (units "File is too large (" ++ megabytes (file_size file)
           ++ units "MB). Please upload a file smaller than 6MB.")
      else
        let isPdf :=
          bool_decide (file_type file = units "application/pdf")
          || endsWith (toLowerCase (file_name file)) (units ".pdf") in
        let isTxt :=
          bool_decide (file_type file = units "text/plain")
          || endsWith (toLowerCase (file_name file)) (units ".txt") in
        if negb isPdf && negb isTxt then
          FileRejected (units "Unsupported file type. Please upload a PDF or TXT file.")
        else FileAccepted (if isPdf then units "application/pdf"
                           else units "text/plain")
  end.
End FileChecks.

(** [result.split(',')[1]]: what is sent as the data of the file. *)
Definition base64Data (result : jsstring) : option jsstring :=
  split COMMA result !! 1%nat.

(** ** [DiscoveryView]: [groupedRecs] *)

Record Recommendation := {
  rec_title : jsstring;
  rec_authors : jsstring;
  rec_year : jsstring;
  rec_reason : jsstring;
  rec_category : jsstring
}.

Definition citedLabel : jsstring := units "Cited within Source".
Definition externalLabel : jsstring := units "External Related Paper".

(** The two sections of the page, [cited] first. *)
Definition groupedRecs (recommendations : option (list Recommendation))
    : list Recommendation * list Recommendation :=
  match recommendations with
  | Some recommendations =>
      (filter (fun r => rec_category r = citedLabel) recommendations,
       filter (fun r => rec_category r = externalLabel) recommendations)
  | None => ([], [])
  end.

(** ** The rest of [downloadCSV]: [encodeURI] and the anchor *)

Definition isLeadSurrogate (c : N) : bool := (55296 <=? c)%N && (c <=? 56319)%N.
Definition isTrailSurrogate (c : N) : bool := (56320 <=? c)%N && (c <=? 57343)%N.

(** [s.isWellFormed()]: every surrogate is half of a pair. *)
Fixpoint isWellFormed (s : jsstring) : bool :=
  match s with
  | [] => true
  | c :: s' =>
      if isLeadSurrogate c then
        match s' with
        | c2 :: s'' => isTrailSurrogate c2 && isWellFormed s''
        | [] => false
        end
      else negb (isTrailSurrogate c) && isWellFormed s'
  end.

(** The code units that [encodeURI] leaves as they are: letters, digits,
    the marks and the reserved characters of a URI, and the hash. *)
Definition isUnescaped (c : N) : bool :=
  ((48 <=? c)%N && (c <=? 57)%N) || ((65 <=? c)%N && (c <=? 90)%N)
  || ((97 <=? c)%N && (c <=? 122)%N)
  || bool_decide (c ∈ [45; 95; 46; 33; 126; 42; 39; 40; 41;
                       59; 47; 63; 58; 64; 38; 61; 43; 36; 44; 35]%N).

Definition hexDigit (n : N) : N := if (n <? 10)%N then (48 + n)%N else (55 + n)%N.

Definition percentEncoded (octet : N) : jsstring :=
  [37%N; hexDigit (octet / 16); hexDigit (octet mod 16)].

(** The octets of a code point in UTF-8. *)
Definition utf8 (cp : N) : list N :=
  if (cp <? 128)%N then [cp]
  else if (cp <? 2048)%N then [192 + cp / 64; 128 + cp mod 64]%N
  else if (cp <? 65536)%N then
    [224 + cp / 4096; 128 + (cp / 64) mod 64; 128 + cp mod 64]%N
  else [240 + cp / 262144; 128 + (cp / 4096) mod 64;
        128 + (cp / 64) mod 64; 128 + cp mod 64]%N.

Definition escaped (cp : N) : jsstring := utf8 cp ≫= percentEncoded.

(** [encodeURI(s)]; [None] stands for the [URIError] thrown at a
    surrogate that is not half of a pair. *)
Fixpoint encodeURI (s : jsstring) : option jsstring :=
  match s with
  | [] => Some []
  | c :: s' =>
      if isUnescaped c then (fun t => c :: t) <$> encodeURI s'
      else if isLeadSurrogate c then
        match s' with
        | c2 :: s'' =>
            if isTrailSurrogate c2 then
              (fun t => escaped ((c - 55296) * 1024 + (c2 - 56320) + 65536)%N ++ t)
                <$> encodeURI s''
            else None
        | [] => None
        end
      else if isTrailSurrogate c then None
      else (fun t => escaped c ++ t) <$> encodeURI s'
  end.

(** The handler over the heap and the page: the matrix objects, the
    anchor element that the handler creates and the body it appends the
    anchor to.  (The arrays of strings that the handler builds on the way
    are values of the model.) *)
Module Page.

Inductive object :=
  | MatrixObj (o : Heap.object)
  | AnchorObj (attributes : gmap jsstring jsstring)
  | BodyObj (children : list Heap.loc).

(** The objects of the matrix among those of the page. *)
Definition matrixPart (h : gmap Heap.loc object) : gmap Heap.loc Heap.object :=
  omap (fun o => match o with MatrixObj m => Some m | _ => None end) h.

Definition notMatrix (o : object) : Prop :=
  match o with MatrixObj _ => False | _ => True end.

(** The matrix state that a reference, or [null], stands for. *)
Definition readState (h : gmap Heap.loc object) (comparisonResult : option Heap.loc)
    : option (option (list ComparisonPoint)) :=
  match comparisonResult with
  | None => Some None
  | Some array => Some <$> Heap.readMatrix (matrixPart h) array
  end.

(** How a click on the button ends. *)
Inductive exportOutcome :=
  | NoOutput
  | URIError
  | Downloaded (href download : jsstring).

Definition setAttribute (h : gmap Heap.loc object) (element : Heap.loc)
    (name value : jsstring) : option (gmap Heap.loc object) :=
  match h !! element with
  | Some (AnchorObj attributes) =>
      Some (<[element := AnchorObj (<[name := value]> attributes)]> h)
  | _ => None
  end.

Definition appendChild (h : gmap Heap.loc object) (parent child : Heap.loc)
    : option (gmap Heap.loc object) :=
  match h !! parent with
  | Some (BodyObj children) =>
      Some (<[parent := BodyObj (filter (fun l => l ≠ child) children ++ [child])]> h)
  | _ => None
  end.

Definition removeChild (h : gmap Heap.loc object) (parent child : Heap.loc)
    : option (gmap Heap.loc object) :=
  match h !! parent with
  | Some (BodyObj children) =>
      Some (<[parent := BodyObj (filter (fun l => l ≠ child) children)]> h)
  | _ => None
  end.

(** [link.click()]: the download that the attributes of the anchor ask
    for. *)
Definition click (h : gmap Heap.loc object) (element : Heap.loc)
    : option exportOutcome :=
  match h !! element with
  | Some (AnchorObj attributes) =>
      Some (Downloaded (default [] (attributes !! units "href"))
              (default [] (attributes !! units "download")))
  | _ => None
  end.

(** The last lines of the handler: the anchor is created, given its two
    attributes, appended to the body, clicked and removed again. *)
Definition startDownload (h : gmap Heap.loc object) (body : Heap.loc)
    (encodedUri : jsstring) : option (gmap Heap.loc object * exportOutcome) :=
  let link := fresh (dom h) in
  let h1 := <[link := AnchorObj ∅]> h in
  h2 ← setAttribute h1 link (units "href") encodedUri;
  h3 ← setAttribute h2 link (units "download") (units "neurolit_comparison.csv");
  h4 ← appendChild h3 body link;
  outcome ← click h4 link;
  h5 ← removeChild h4 body link;
  Some (h5, outcome).

(** [downloadCSV] with [body] for [document.body]: the heap after the
    call and how the call ended; [None] when the heap holds no matrix at
    the reference or no body at [body]. *)
Definition downloadCSV (h : gmap Heap.loc object) (body : Heap.loc)
    (papers : list PaperAnalysis) (comparisonResult : option Heap.loc)
    (selectedIds : gset jsstring)
    : option (gmap Heap.loc object * exportOutcome) :=
  match comparisonResult with
  | None => Some (h, NoOutput)
  | Some array =>
      if decide (size selectedIds = 0%nat) then Some (h, NoOutput)
      else
        points ← Heap.readMatrix (matrixPart h) array;
        let csvContent := csvPrefix ++ csvText papers points in
        match encodeURI csvContent with
        | None => Some (h, URIError)
        | Some encodedUri => startDownload h body encodedUri
        end
  end.

(** A page made of the objects of a matrix heap and an empty body. *)
Definition pageOf (hm : gmap Heap.loc Heap.object)
    : gmap Heap.loc object * Heap.loc :=
  let h := MatrixObj <$> hm in
  let body := fresh (dom h) in
  (<[body := BodyObj []]> h, body).

End Page.

(** ** A host that sorts punctuation as the locale does

    [localeCompare] follows the collation of the locale, in which (as in
    the root collation of CLDR) the hyphen comes before the star, while
    as code units the star, 42, comes before the hyphen, 45.  This host
    differs from [compareUnits] in that one respect. *)
Definition collationWeight (c : N) : N :=
  if (c =? HYPHEN)%N then STAR else if (c =? STAR)%N then HYPHEN else c.

Definition hyphenFirstCompare (a b : jsstring) : Z :=
  compareUnits (collationWeight <$> a) (collationWeight <$> b).

(** [strayMatrix] laid out in a heap, and a page around it. *)
Definition strayArray : Heap.loc := (Heap.storeMatrix ∅ strayMatrix).2.

Definition strayPage : gmap Heap.loc Page.object * Heap.loc :=
  Page.pageOf (Heap.storeMatrix ∅ strayMatrix).1.

(** [sampleMatrix] in a heap with a page around it, and a library whose
    first paper has a title made of one lead surrogate. *)
Definition sampleArray : Heap.loc := (Heap.storeMatrix ∅ sampleMatrix).2.

Definition samplePage : gmap Heap.loc Page.object * Heap.loc :=
  Page.pageOf (Heap.storeMatrix ∅ sampleMatrix).1.

Definition brokenTitlePapers : list PaperAnalysis :=
  [ {| id := units "p1"; fileName := units "a.pdf"; title := [55357%N];
       summary := []; majorFindings := []; methodology := [];
       researchGaps := []; keywords := []; uploadDate := 0 |} ].

(** Two papers whose texts under the model dimension start with the two
    marks that the prompt of the comparison asks for. *)
Definition markupMatrix : list ComparisonPoint :=
  [ mkPoint "Model" [("p1", "**MRI**"); ("p2", "- Cox")] ].

Definition markupPapers : list PaperAnalysis :=
  [ mkPaper "p1" "a.pdf" "First"; mkPaper "p2" "b.pdf" "Second" ].

(** *** More sample data *)

Definition sampleState : viewState :=
  {| st_selectedIds := {[ units "p1"; units "p2" ]};
     st_isComparing := false;
     st_error := Some (units "old");
     st_comparisonResult := None |}.

(** A text file by its declared type whose name ends in upper-case
    [.PDF], and a file of seven million bytes. *)
Definition mislabelledFile : File :=
  {| file_name := units "Paper.PDF"; file_type := units "text/plain";
     file_size := 1000 |}.

Definition hugeFile : File :=
  {| file_name := units "scan.pdf"; file_type := units "application/pdf";
     file_size := 7000000 |}.

Definition sampleRecs : list Recommendation :=
  [ {| rec_title := units "A"; rec_authors := units "x"; rec_year := units "2001";
       rec_reason := units "r"; rec_category := units "External Related Paper" |};
    {| rec_title := units "B"; rec_authors := units "y"; rec_year := units "1999";
       rec_reason := units "r"; rec_category := units "Cited within Source" |};
    {| rec_title := units "C"; rec_authors := units "z"; rec_year := units "2020";
       rec_reason := units "r"; rec_category := units "Review" |} ].

(** * Properties *)

(** ** [updateCell] *)

Section UpdateCell.
Implicit Types (points : list ComparisonPoint) (c : ComparisonPoint).
Implicit Types (doc dim text : jsstring).

Lemma updateCell_Some points doc dim text :
  updateCell (Some points) doc dim text
  = Some (updatePoint doc dim text <$> points).
Proof. reflexivity. Qed.

Lemma updatePoint_criteria doc dim text c :
  criteria (updatePoint doc dim text c) = criteria c.
Proof. unfold updatePoint. by case_decide. Qed.

Lemma updatePoint_hit doc dim text c :
  criteria c = dim →
  updatePoint doc dim text c
  = {| criteria := dim; paperInsights := <[doc := text]> (paperInsights c) |}.
Proof. intros <-. unfold updatePoint. by rewrite decide_True. Qed.

Lemma updatePoint_miss doc dim text c :
  criteria c ≠ dim → updatePoint doc dim text c = c.
Proof. intros. unfold updatePoint. by rewrite decide_False. Qed.

Lemma updatePoint_names doc dim text points :
  criteria <$> (updatePoint doc dim text <$> points) = criteria <$> points.
Proof.
  rewrite <- list_fmap_compose. apply list_fmap_ext.
  intros _ c _. apply updatePoint_criteria.
Qed.

(** No element carries the name: the mapped array has the same elements. *)
Lemma updatePoint_absent doc dim text points :
  dim ∉ criteria <$> points → updatePoint doc dim text <$> points = points.
Proof.
  induction points as [|c points IH]; [done|].
  rewrite fmap_cons, not_elem_of_cons. intros [Hc Hrest]. cbn.
  rewrite updatePoint_miss by done. by rewrite IH.
Qed.

(** With distinct names, the mapped array is the old one with the one
    element named [dim] replaced. *)
Lemma updatePoint_unique doc dim text points :
  NoDup (criteria <$> points) → dim ∈ criteria <$> points →
  ∃ (i : nat) c,
    points !! i = Some c ∧ criteria c = dim ∧
    updatePoint doc dim text <$> points
    = <[i := {| criteria := dim;
                paperInsights := <[doc := text]> (paperInsights c) |}]> points.
Proof.
  induction points as [|c points IH]; cbn.
  - intros _ H. by apply elem_of_nil in H.
  - rewrite NoDup_cons. intros [Hfresh Hnd] Hin.
    destruct (decide (criteria c = dim)) as [Heq|Hne].
    + exists 0%nat, c. split_and!; [done..|]. cbn.
      rewrite updatePoint_hit by done.
      rewrite updatePoint_absent; [done|]. by rewrite <- Heq.
    + apply elem_of_cons in Hin as [?|Hin]; [congruence|].
      destruct (IH Hnd Hin) as (i & c' & Hi & Hc' & Heq).
      exists (S i), c'. split_and!; [done..|]. cbn.
      rewrite updatePoint_miss by done. by rewrite Heq.
Qed.
End UpdateCell.

(** *** Copy on write *)

Section HeapFacts.
Implicit Types (h : gmap Heap.loc Heap.object) (c : ComparisonPoint).
Implicit Types (ls : list Heap.loc) (points : list ComparisonPoint).
Implicit Types (doc dim text : jsstring).

Lemma alloc_spec h o h' l :
  Heap.alloc h o = (h', l) → h !! l = None ∧ h' = <[l := o]> h ∧ h ⊆ h'.
Proof.
  unfold Heap.alloc. intros [= <- <-].
  assert (h !! fresh (dom h) = None) as Hfresh
    by apply not_elem_of_dom, is_fresh.
  split_and!; [done..|]. by apply insert_subseteq.
Qed.

Lemma readPoint_weaken h h' l c :
  h ⊆ h' → Heap.readPoint h l = Some c → Heap.readPoint h' l = Some c.
Proof.
  intros Hsub. unfold Heap.readPoint.
  destruct (h !! l) as [[| name insights |]|] eqn:Hl; try done.
  destruct (h !! insights) as [[| |fields]|] eqn:Hi; try done.
  intros [= <-].
  by rewrite (lookup_weaken _ _ _ _ Hl Hsub), (lookup_weaken _ _ _ _ Hi Hsub).
Qed.

Lemma readPoints_weaken h h' ls points :
  h ⊆ h' → mapM (Heap.readPoint h) ls = Some points →
  mapM (Heap.readPoint h') ls = Some points.
Proof.
  intros Hsub. rewrite !mapM_Some. intros H.
  eapply Forall2_impl; [exact H|]. intros l c. by apply readPoint_weaken.
Qed.

Lemma readMatrix_weaken h h' array points :
  h ⊆ h' → Heap.readMatrix h array = Some points → Heap.readMatrix h' array = Some points.
Proof.
  intros Hsub. unfold Heap.readMatrix.
  destruct (h !! array) as [[ls| |]|] eqn:Ha; try done.
  rewrite (lookup_weaken _ _ _ _ Ha Hsub). by apply readPoints_weaken.
Qed.

(** One element: a hit allocates two objects, a miss allocates nothing;
    in both cases the objects already there are left as they are. *)
Lemma mapPoint_spec doc dim text h l c :
  Heap.readPoint h l = Some c →
  ∃ h' l', Heap.mapPoint doc dim text h l = Some (h', l')
           ∧ h ⊆ h'
           ∧ Heap.readPoint h' l' = Some (updatePoint doc dim text c).
Proof.
  unfold Heap.readPoint, Heap.mapPoint.
  destruct (h !! l) as [[| name insights |]|] eqn:Hl; try done.
  destruct (h !! insights) as [[| |fields]|] eqn:Hi; try done.
  intros [= <-]. unfold updatePoint. cbn [criteria paperInsights].
  case_decide as Hname.
  - destruct (Heap.alloc h (Heap.RecordObj (<[doc := text]> fields))) as [h1 l1] eqn:H1.
    destruct (Heap.alloc h1 (Heap.PointObj name l1)) as [h2 l2] eqn:H2.
    apply alloc_spec in H1 as (Hf1 & -> & Hsub1).
    apply alloc_spec in H2 as (Hf2 & -> & Hsub2).
    eexists _, _. split_and!; [done|by etrans|].
    rewrite lookup_insert_eq.
    rewrite lookup_insert_ne by (intros ->; by rewrite lookup_insert_eq in Hf2).
    by rewrite lookup_insert_eq.
  - eexists _, _. split_and!; [done..|]. by rewrite Hl, Hi.
Qed.

Lemma mapPoints_spec doc dim text ls : ∀ h points,
  mapM (Heap.readPoint h) ls = Some points →
  ∃ h' ls', Heap.mapPoints doc dim text h ls = Some (h', ls')
            ∧ h ⊆ h'
            ∧ mapM (Heap.readPoint h') ls' = Some (updatePoint doc dim text <$> points).
Proof.
  induction ls as [|l ls IH]; intros h points; rewrite mapM_Some.
  - intros ->%Forall2_nil_inv_l. by exists h, [].
  - intros (c & rest & Hl & Hrest & ->)%Forall2_cons_inv_l. cbn.
    destruct (mapPoint_spec doc dim text h l c Hl) as (h1 & l' & -> & Hsub1 & Hl').
    destruct (IH h1 rest) as (h2 & ls' & -> & Hsub2 & Hls').
    { apply (readPoints_weaken h); [done|]. by apply mapM_Some. }
    exists h2, (l' :: ls'). split_and!; [done|by etrans|].
    apply mapM_Some. constructor; [|by apply mapM_Some].
    by apply (readPoint_weaken h1).
Qed.

(** The heap-level update computes the value-level one in fresh objects
    and leaves every Heap.object of the old heap as it was. *)
Lemma updateCell_copy_on_write doc dim text h array points :
  Heap.readMatrix h array = Some points →
  ∃ h' array',
    Heap.updateCell h (Some array) doc dim text = Some (h', Some array')
    ∧ h ⊆ h'
    ∧ (array' ∉ dom h)
    ∧ Heap.readMatrix h' array' = updateCell (Some points) doc dim text
    ∧ Heap.readMatrix h' array = Some points.
Proof.
  intros Hread. pose proof Hread as Hread0. unfold Heap.readMatrix in Hread.
  unfold Heap.updateCell.
  destruct (h !! array) as [[ls| |]|] eqn:Ha; try done.
  destruct (mapPoints_spec doc dim text ls h points Hread)
    as (h1 & ls' & -> & Hsub1 & Hls').
  destruct (Heap.alloc h1 (Heap.ArrayObj ls')) as [h2 array'] eqn:H2.
  apply alloc_spec in H2 as (Hf2 & -> & Hsub2).
  assert (h ⊆ <[array' := Heap.ArrayObj ls']> h1) as Hsub by by etrans.
  eexists _, _. split_and!; [done|done| | |].
  - apply not_elem_of_dom. destruct (h !! array') eqn:Hl; [|done].
    by rewrite (lookup_weaken _ _ _ _ Hl Hsub1) in Hf2.
  - unfold Heap.readMatrix. rewrite lookup_insert_eq.
    by apply (readPoints_weaken h1).
  - by apply (readMatrix_weaken h).
Qed.
End HeapFacts.

(** C1. With distinct dimension names and a dimension named [dim], the
    update yields a new matrix, in objects that did not exist before,
    which is the old one with the dimension named [dim] replaced, at its
    position [i], by one whose insight for [doc] is [text]: every
    dimension keeps its name and its position, and every insight entry
    other than that of ([dim], [doc]) is what it was.  No object of the
    heap is written to, so the old reference still stands for the old
    matrix. *)
Theorem updateCell_changes_one_cell_copy_on_write
    (h : gmap Heap.loc Heap.object) (array : Heap.loc)
    (points : list ComparisonPoint) (doc dim text : jsstring) :
  Heap.readMatrix h array = Some points →
  NoDup (criteria <$> points) →
  dim ∈ criteria <$> points →
  ∃ h' array' points' (i : nat) c,
    Heap.updateCell h (Some array) doc dim text = Some (h', Some array')
    ∧ Heap.readMatrix h' array' = Some points'
    ∧ updateCell (Some points) doc dim text = Some points'
    ∧ points !! i = Some c ∧ criteria c = dim
    ∧ points' = <[i := {| criteria := dim;
                          paperInsights := <[doc := text]> (paperInsights c) |}]>
                  points
    ∧ criteria <$> points' = criteria <$> points
    ∧ (∀ (j : nat) cj, points !! j = Some cj →
         ∃ cj', points' !! j = Some cj'
                ∧ ∀ d, paperInsights cj' !! d
                       = if decide (j = i ∧ d = doc) then Some text
                         else paperInsights cj !! d)
    ∧ h ⊆ h'
    ∧ (array' ∉ dom h)
    ∧ Heap.readMatrix h' array = Some points.
Proof.
  intros Hread Hnd Hin.
  destruct (updateCell_copy_on_write doc dim text h array points Hread)
    as (h' & array' & Hupd & Hsub & Hfresh & Hnew & Hold).
  destruct (updatePoint_unique doc dim text points Hnd Hin)
    as (i & c & Hi & Hc & Heq).
  exists h', array', (updatePoint doc dim text <$> points), i, c.
  split_and!; try done.
  - apply updatePoint_names.
  - intros j cj Hj. exists (updatePoint doc dim text cj).
    split; [by rewrite list_lookup_fmap, Hj|].
    intros d. destruct (decide (j = i)) as [->|Hji].
    + assert (cj = c) as -> by congruence.
      rewrite updatePoint_hit by done. cbn.
      rewrite lookup_insert. destruct (decide (doc = d)) as [->|Hd].
      * by rewrite decide_True.
      * rewrite decide_False; [done|]. intros [_ ->]. done.
    + rewrite decide_False by (intros [? _]; done).
      rewrite updatePoint_miss; [done|]. intros Hcj.
      apply Hji. eapply NoDup_lookup; [exact Hnd|..].
      * by rewrite list_lookup_fmap, Hj.
      * rewrite list_lookup_fmap, Hi. cbn. congruence.
Qed.

Lemma updateCell_changes_one_cell_copy_on_write_witness :
  let '(h, array) := Heap.storeMatrix ∅ sampleMatrix in
  ∃ h' array' points',
    Heap.updateCell h (Some array) (units "p1") (units "Key Findings") (units "z")
    = Some (h', Some array')
    ∧ Heap.readMatrix h' array' = Some points'
    ∧ (λ c, insightOf c (units "p1")) <$> points'
      = [units "RCT"; units "MRI"; units "z"]
    ∧ (λ c, insightOf c (units "p2")) <$> points'
      = [units "Cohort"; units "Cox"; units "y"]
    ∧ Heap.readMatrix h' array = Some sampleMatrix.
Proof.
  destruct (Heap.storeMatrix ∅ sampleMatrix) as [h array] eqn:Hstore.
  destruct (updateCell_changes_one_cell_copy_on_write h array sampleMatrix
              (units "p1") (units "Key Findings") (units "z"))
    as (h' & array' & points' & i & c & Hupd & Hread & Hval & _ & _ & _ & _ & _
        & _ & _ & Hold).
  - injection Hstore as <- <-. by vm_compute.
  - by apply (bool_decide_unpack _).
  - by apply (bool_decide_unpack _).
  - exists h', array', points'. split_and!; [done|done| | |done].
    + injection Hval as <-. by vm_compute.
    + injection Hval as <-. by vm_compute.
Defined.

(** C9. A lookup miss is a silent no-op: when the matrix is absent, or
    when no dimension is named exactly [dim], [updateCell] returns
    normally (it is a total function) and the matrix state after the call
    equals the state before it: same dimensions, same order, same
    insight entries. *)
Theorem updateCell_miss_is_noop
    (comparisonResult : option (list ComparisonPoint)) (doc dim text : jsstring) :
  (∀ points, comparisonResult = Some points → dim ∉ criteria <$> points) →
  updateCell comparisonResult doc dim text = comparisonResult.
Proof.
  destruct comparisonResult as [points|]; [|done].
  intros Hmiss. rewrite updateCell_Some.
  by rewrite updatePoint_absent by by apply Hmiss.
Qed.

Lemma updateCell_miss_is_noop_witness :
  updateCell None (units "p1") (units "Key Findings") (units "z") = None
  ∧ updateCell (Some sampleMatrix) (units "p1") (units "Funding") (units "z")
    = Some sampleMatrix.
Proof.
  split.
  - apply (updateCell_miss_is_noop None). intros points H. discriminate H.
  - apply (updateCell_miss_is_noop (Some sampleMatrix)).
    intros points [= <-]. by apply (bool_decide_unpack _).
Defined.

(** C10. Names are not required to be distinct, and the update maps over
    the whole array: every dimension named [dim], at whatever position,
    gets the insight of [doc] set to [text].  With two dimensions of the
    same name one edit therefore changes two entries, as [dupMatrix]
    shows. *)
Theorem updateCell_every_same_named_dimension :
  (∀ (points : list ComparisonPoint) (doc dim text : jsstring) (i : nat) c,
      points !! i = Some c → criteria c = dim →
      ∃ points' c',
        updateCell (Some points) doc dim text = Some points'
        ∧ points' !! i = Some c'
        ∧ criteria c' = dim
        ∧ paperInsights c' = <[doc := text]> (paperInsights c)
        ∧ insightOf c' doc = text)
  ∧ (∃ points' c0 c2,
        updateCell (Some dupMatrix) (units "p1") (units "Model") (units "fMRI")
        = Some points'
        ∧ dupMatrix !! 0%nat = Some c0 ∧ dupMatrix !! 2%nat = Some c2
        ∧ insightOf c0 (units "p1") = units "MRI"
        ∧ insightOf c2 (units "p1") = units "PET"
        ∧ (λ c, insightOf c (units "p1")) <$> points' !! 0%nat = Some (units "fMRI")
        ∧ (λ c, insightOf c (units "p1")) <$> points' !! 2%nat = Some (units "fMRI")).
Proof.
  split.
  - intros points doc dim text i c Hi Hc.
    exists (updatePoint doc dim text <$> points), (updatePoint doc dim text c).
    split_and!.
    + apply updateCell_Some.
    + by rewrite list_lookup_fmap, Hi.
    + by rewrite updatePoint_criteria.
    + by rewrite updatePoint_hit.
    + rewrite updatePoint_hit by done. unfold insightOf. cbn.
      by rewrite lookup_insert_eq.
  - eexists _, _, _. split_and!; [reflexivity| reflexivity | reflexivity | ..];
      by vm_compute.
Qed.

Lemma updateCell_every_same_named_dimension_witness :
  ∃ points' c',
    updateCell (Some dupMatrix) (units "p1") (units "Model") (units "fMRI")
    = Some points'
    ∧ points' !! 2%nat = Some c'
    ∧ insightOf c' (units "p1") = units "fMRI".
Proof.
  destruct updateCell_every_same_named_dimension as [H _].
  destruct (H dupMatrix (units "p1") (units "Model") (units "fMRI") 2%nat
              (mkPoint "Model" [("p1", "PET")]))
    as (points' & c' & H1 & H2 & _ & _ & H3).
  - reflexivity.
  - reflexivity.
  - exists points', c'. auto.
Defined.

(** ** Transposer *)

Lemma elem_of_Object_keys (o : gmap jsstring jsstring) (k : jsstring) :
  k ∈ Object_keys o ↔ k ∈ dom o.
Proof. unfold Object_keys. apply elem_of_elements. Qed.

Lemma elem_of_activeResultIds comparisonResult (k : jsstring) :
  k ∈ activeResultIds comparisonResult ↔ k ∈ activeDocumentIds comparisonResult.
Proof. unfold activeDocumentIds. by rewrite elem_of_list_to_set. Qed.

Lemma activeDocumentIds_cons first rest :
  activeDocumentIds (Some (first :: rest)) = dom (paperInsights first).
Proof.
  unfold activeDocumentIds, activeResultIds, Object_keys.
  apply list_to_set_elements_L.
Qed.

(** C2. The active document set is the key set of the first dimension's
    mapping, and empty without a dimension; the table's documents before
    sorting are the input documents whose id is in that set, in their
    original relative order; whatever the later dimensions hold, the
    active set is the same. *)
Theorem active_set_is_first_dimension_keys :
  activeDocumentIds None = ∅
  ∧ activeDocumentIds (Some []) = ∅
  ∧ (∀ first rest,
       activeDocumentIds (Some (first :: rest)) = dom (paperInsights first))
  ∧ (∀ papers comparisonResult,
       transposed papers comparisonResult
       = filter (λ p, id p ∈ activeDocumentIds comparisonResult) papers
       ∧ transposed papers comparisonResult `sublist_of` papers
       ∧ ∀ p, p ∈ transposed papers comparisonResult
              ↔ p ∈ papers ∧ id p ∈ activeDocumentIds comparisonResult)
  ∧ (∀ first rest rest',
       activeDocumentIds (Some (first :: rest))
       = activeDocumentIds (Some (first :: rest'))).
Proof.
  split_and!; try done.
  - apply activeDocumentIds_cons.
  - intros papers comparisonResult. unfold transposed. split_and!.
    + apply list_filter_iff. intros p. apply elem_of_activeResultIds.
    + apply sublist_filter.
    + intros p. rewrite list_elem_of_filter, elem_of_activeResultIds. tauto.
Qed.

(** ** The host's [sort] *)

Section SortFacts.
Context {A : Type} (compareFn : A → A → Z).

Lemma insertSorted_Permutation x l : insertSorted compareFn x l ≡ₚ x :: l.
Proof.
  induction l as [|y l IH]; cbn; [done|].
  case_match; [|done]. rewrite IH. apply Permutation_swap.
Qed.

Lemma sort_Permutation l : sort compareFn l ≡ₚ l.
Proof.
  induction l as [|x l IH]; cbn; [done|].
  by rewrite insertSorted_Permutation, IH.
Qed.

(** A consistent comparator: the sign flips with the arguments and
    "not after" is transitive. *)
Hypothesis compareFn_flip : ∀ a b, Z.sgn (compareFn b a) = - Z.sgn (compareFn a b).
Hypothesis compareFn_trans :
  ∀ a b c, compareFn a b ≤ 0 → compareFn b c ≤ 0 → compareFn a c ≤ 0.

Local Abbreviation notAfter := (notAfter compareFn).
Local Abbreviation tied := (tied compareFn).

Lemma compareFn_after a b : 0 < compareFn a b → compareFn b a ≤ 0.
Proof. intros H. pose proof (compareFn_flip a b). lia. Qed.

Lemma tied_flip a b : tied a b → tied b a.
Proof. unfold tied. intros H. pose proof (compareFn_flip a b). lia. Qed.

Lemma tied_not_after z x y : tied z x → tied z y → compareFn x y ≤ 0.
Proof.
  intros Hx Hy. apply (compareFn_trans x z y).
  - apply tied_flip in Hx. unfold tied in Hx. lia.
  - unfold tied in Hy. lia.
Qed.

Lemma insertSorted_sorted x l :
  StronglySorted notAfter l → StronglySorted notAfter (insertSorted compareFn x l).
Proof.
  induction 1 as [|y l Hl IH Hy]; cbn.
  - repeat constructor.
  - destruct (0 <? compareFn x y) eqn:Hxy.
    + apply Z.ltb_lt in Hxy. constructor; [done|].
      rewrite insertSorted_Permutation. constructor; [|done].
      by apply compareFn_after.
    + apply Z.ltb_ge in Hxy. constructor; [by constructor|].
      constructor; [done|].
      eapply Forall_impl; [exact Hy|]. intros z Hz.
      by apply (compareFn_trans x y z).
Qed.

Lemma sort_sorted l : StronglySorted notAfter (sort compareFn l).
Proof.
  induction l as [|x l IH]; cbn; [constructor|]. by apply insertSorted_sorted.
Qed.

(** Insertion never moves an element past one it is tied with. *)
Lemma insertSorted_stable z x l :
  filter (tied z) (insertSorted compareFn x l) = filter (tied z) (x :: l).
Proof.
  induction l as [|y l IH]; cbn; [done|].
  destruct (0 <? compareFn x y) eqn:Hxy; [|done].
  apply Z.ltb_lt in Hxy.
  rewrite !filter_cons, IH, !filter_cons.
  destruct (decide (tied z y)) as [Hy|]; [|done].
  destruct (decide (tied z x)) as [Hx|]; [|done].
  pose proof (tied_not_after z x y Hx Hy). lia.
Qed.

Lemma sort_stable z l :
  filter (tied z) (sort compareFn l) = filter (tied z) l.
Proof.
  unfold sort. induction l as [|x l IH]; cbn; [done|].
  by rewrite insertSorted_stable, !filter_cons, IH.
Qed.
Lemma tied_refl x : tied x x.
Proof. unfold tied. pose proof (compareFn_flip x x). lia. Qed.

(** The contract determines the result: two sorted arrangements of the
    same elements that keep the order of tied elements are equal.  Any
    implementation of [sort] therefore returns what the insertion does. *)
Lemma stable_sorted_unique l1 : ∀ l2,
  l1 ≡ₚ l2 →
  StronglySorted notAfter l1 → StronglySorted notAfter l2 →
  (∀ z, filter (tied z) l1 = filter (tied z) l2) →
  l1 = l2.
Proof.
  induction l1 as [|x l1 IH]; intros l2 Hperm Hs1 Hs2 Hstable.
  - by apply Permutation_nil_l in Hperm.
  - destruct l2 as [|y l2]; [by apply Permutation_nil_r in Hperm|].
    apply StronglySorted_inv in Hs1 as [Hs1 Hx].
    apply StronglySorted_inv in Hs2 as [Hs2 Hy].
    rewrite Forall_forall in Hx, Hy.
    assert (tied x y) as Hxy.
    { assert (compareFn x y ≤ 0) as H1.
      { assert (y ∈ x :: l1) as Hin by (rewrite Hperm; left).
        apply elem_of_cons in Hin as [->|Hin]; [|by apply Hx].
        pose proof (tied_refl x) as Hr. unfold tied in Hr. lia. }
      assert (compareFn y x ≤ 0) as H2.
      { assert (x ∈ y :: l2) as Hin by (rewrite <- Hperm; left).
        apply elem_of_cons in Hin as [->|Hin]; [|by apply Hy].
        pose proof (tied_refl y) as Hr. unfold tied in Hr. lia. }
      unfold tied. pose proof (compareFn_flip x y). lia. }
    pose proof (Hstable x) as Hhead.
    rewrite !filter_cons, decide_True in Hhead by apply tied_refl.
    rewrite decide_True in Hhead by done.
    injection Hhead as <- _. f_equal.
    apply IH; [by eapply Permutation_cons_inv|done..|].
    intros z. specialize (Hstable z). rewrite !filter_cons in Hstable.
    destruct (decide (tied z x)); [by injection Hstable|done].
Qed.

Lemma sort_unique l r :
  r ≡ₚ l → StronglySorted notAfter r →
  (∀ z, filter (tied z) r = filter (tied z) l) →
  r = sort compareFn l.
Proof.
  intros Hperm Hsorted Hstable. apply stable_sorted_unique.
  - by rewrite sort_Permutation.
  - done.
  - apply sort_sorted.
  - intros z. by rewrite sort_stable.
Qed.
End SortFacts.

(** ** Substring search *)

Lemma startsWith_spec (s prefix : jsstring) :
  startsWith s prefix = true ↔ ∃ rest, s = prefix ++ rest.
Proof.
  revert s. induction prefix as [|p prefix IH]; intros s; cbn.
  - split; [eauto|done].
  - destruct s as [|c s]; cbn.
    + split; [done|]. by intros [? ?].
    + rewrite andb_true_iff, N.eqb_eq, IH. split.
      * intros [-> [rest ->]]. eauto.
      * intros [rest [= -> ->]]. eauto.
Qed.

Lemma includes_spec (s sub : jsstring) :
  includes s sub = true ↔ containsSubstring s sub.
Proof.
  unfold containsSubstring. induction s as [|c s IH]; cbn [includes].
  - rewrite orb_false_r, startsWith_spec. split.
    + intros [rest H]. exists [], rest. done.
    + intros (before & after & H). symmetry in H.
      apply app_eq_nil in H as [-> H]. eauto.
  - rewrite orb_true_iff, IH, startsWith_spec. split.
    + intros [[rest H]|(before & after & H)].
      * exists [], rest. done.
      * exists (c :: before), after. by rewrite H.
    + intros ([|c' before] & after & H).
      * left. eauto.
      * right. injection H as _ H. eauto.
Qed.

(** ** The example host is consistent *)

Lemma compareUnits_flip a b :
  Z.sgn (compareUnits b a) = - Z.sgn (compareUnits a b).
Proof.
  revert b. induction a as [|x a IH]; intros [|y b]; cbn; try done.
  rewrite (N.compare_antisym x y). destruct (x ?= y)%N; cbn; auto.
Qed.

Lemma compareUnits_range a b :
  compareUnits a b = -1 ∨ compareUnits a b = 0 ∨ compareUnits a b = 1.
Proof.
  revert b. induction a as [|x a IH]; intros [|y b]; cbn; auto.
  destruct (x ?= y)%N; auto.
Qed.

Lemma compareUnits_trans a b c :
  compareUnits a b ≤ 0 → compareUnits b c ≤ 0 → compareUnits a c ≤ 0.
Proof.
  revert b c. induction a as [|x a IH]; intros [|y b] [|z c]; cbn; try lia.
  destruct (x ?= y)%N eqn:Hxy; [| |lia].
  - apply N.compare_eq in Hxy as ->.
    destruct (y ?= z)%N; [apply IH|lia..].
  - destruct (y ?= z)%N eqn:Hyz; [| |lia].
    + apply N.compare_eq in Hyz as <-. by rewrite Hxy.
    + intros _ _. by rewrite (N.lt_trans x y z Hxy Hyz).
Qed.

(** ** Sorter *)

Section SorterFacts.
Variable toLowerCase : jsstring → jsstring.
Variable localeCompare : jsstring → jsstring → Z.

Local Abbreviation isModel := (isModelCriteria toLowerCase).
Local Abbreviation named := (namesModel toLowerCase).
Local Abbreviation key := (sortKey toLowerCase).

Lemma isModelCriteria_spec c : isModel c = true ↔ named c.
Proof.
  unfold isModelCriteria, namesModel.
  by rewrite orb_true_iff, !includes_spec.
Qed.

(** [find] returns the first element, in array order, that satisfies the
    predicate. *)
Lemma modelCriteria_first points (i : nat) mc :
  points !! i = Some mc → named mc →
  (∀ (j : nat) c, (j < i)%nat → points !! j = Some c → ¬ named c) →
  modelCriteria toLowerCase points = Some mc.
Proof.
  intros Hi Hmc Hfirst. unfold modelCriteria.
  assert (list_find (λ c, isModel c = true) points = Some (i, mc)) as ->;
    [|done].
  apply list_find_Some. split_and!; [done|by apply isModelCriteria_spec|].
  intros j c Hj Hlt. rewrite isModelCriteria_spec. by apply (Hfirst j).
Qed.

Lemma modelCriteria_none points :
  (∀ c, c ∈ points → ¬ named c) →
  modelCriteria toLowerCase points = None.
Proof.
  intros Hnone. unfold modelCriteria.
  assert (list_find (λ c, isModel c = true) points = None) as ->; [|done].
  apply list_find_None, Forall_forall. intros c Hc.
  rewrite isModelCriteria_spec. by apply Hnone.
Qed.

Hypothesis localeCompare_flip :
  ∀ a b, Z.sgn (localeCompare b a) = - Z.sgn (localeCompare a b).
Hypothesis localeCompare_trans :
  ∀ a b c, localeCompare a b ≤ 0 → localeCompare b c ≤ 0 → localeCompare a c ≤ 0.

(** C3, as the code has it. The Sorter takes the first dimension, in
    matrix order, whose lowercased name contains "model" or
    "architecture".  With such a dimension [mc] the table is the baseline
    list rearranged so that the lowercased insight texts under [mc] (the
    empty text when absent) ascend in the order of the host's
    [localeCompare], the collation order of the locale; texts that are
    equal once lowercased are tied, and documents whose keys are tied
    keep their baseline order.  Without a matrix, or without such a
    dimension, the table is the baseline list. *)
Theorem sorter_groups_by_first_model_dimension papers comparisonResult :
  let baseline := transposed papers comparisonResult in
  let result := tablePapers toLowerCase localeCompare papers comparisonResult in
  (comparisonResult = None → result = baseline)
  ∧ (∀ points, comparisonResult = Some points →
       (∀ c, c ∈ points → ¬ namesModel toLowerCase c) → result = baseline)
  ∧ (∀ points (i : nat) mc,
       comparisonResult = Some points →
       points !! i = Some mc → namesModel toLowerCase mc →
       (∀ (j : nat) c, (j < i)%nat → points !! j = Some c → ¬ namesModel toLowerCase c) →
       result ≡ₚ baseline
       ∧ StronglySorted
           (λ a b, localeCompare (sortKey toLowerCase mc a) (sortKey toLowerCase mc b) ≤ 0) result
       ∧ (∀ x, filter (λ y, localeCompare (sortKey toLowerCase mc x) (sortKey toLowerCase mc y) = 0) result
              = filter (λ y, localeCompare (sortKey toLowerCase mc x) (sortKey toLowerCase mc y) = 0)
                  baseline)
       ∧ (∀ a b,
            toLowerCase (insightOf mc (id a)) = toLowerCase (insightOf mc (id b)) →
            compareByModel toLowerCase localeCompare mc a b = 0)).
Proof.
  intros baseline result. split_and!.
  - by intros ->.
  - intros points -> Hnone. subst result baseline.
    unfold tablePapers. by rewrite modelCriteria_none.
  - intros points i mc -> Hi Hmc Hfirst.
    assert (result = sort (compareByModel toLowerCase localeCompare mc) baseline)
      as ->.
    { subst result baseline. unfold tablePapers.
      by rewrite (modelCriteria_first points i mc). }
    assert (∀ a b, Z.sgn (compareByModel toLowerCase localeCompare mc b a)
                   = - Z.sgn (compareByModel toLowerCase localeCompare mc a b))
      as Hflip by (intros; apply localeCompare_flip).
    assert (∀ a b c, compareByModel toLowerCase localeCompare mc a b ≤ 0 →
                     compareByModel toLowerCase localeCompare mc b c ≤ 0 →
                     compareByModel toLowerCase localeCompare mc a c ≤ 0)
      as Htrans by (intros ???; apply localeCompare_trans).
    split_and!.
    + apply sort_Permutation.
    + apply (sort_sorted _ Hflip Htrans).
    + intros x. apply (sort_stable _ Hflip Htrans x).
    + intros a b Hcase. unfold compareByModel. cbv zeta. rewrite Hcase.
      pose proof (localeCompare_flip (toLowerCase (insightOf mc (id b)))
                    (toLowerCase (insightOf mc (id b)))). lia.
Qed.
End SorterFacts.

(** The selection example of the specification: of the three names
    Study Design, Model/Architecture/Tools Used and Key Findings, the
    second is taken. *)
Lemma modelCriteria_sample :
  modelCriteria asciiLower sampleMatrix = sampleMatrix !! 1%nat.
Proof. by vm_compute. Qed.

Lemma sorter_groups_by_first_model_dimension_witness :
  let mc := mkPoint "Model/Architecture/Tools Used" [("p1", "MRI"); ("p2", "Cox")] in
  let result := tablePapers asciiLower compareUnits samplePapers (Some sampleMatrix) in
  result = [mkPaper "p2" "b.pdf" "Second"; mkPaper "p1" "a.pdf" "First"]
  ∧ result ≡ₚ transposed samplePapers (Some sampleMatrix)
  ∧ StronglySorted
      (λ a b, compareUnits (sortKey asciiLower mc a) (sortKey asciiLower mc b) ≤ 0)
      result.
Proof.
  intros mc result. split; [by vm_compute|].
  destruct (sorter_groups_by_first_model_dimension asciiLower compareUnits
              compareUnits_flip compareUnits_trans samplePapers (Some sampleMatrix))
    as (_ & _ & H).
  destruct (H sampleMatrix 1%nat mc) as (Hperm & Hsorted & _).
  - reflexivity.
  - reflexivity.
  - apply isModelCriteria_spec. by vm_compute.
  - intros j c Hj Hc. assert (j = 0%nat) as -> by lia.
    injection Hc as <-. rewrite <- isModelCriteria_spec. by vm_compute.
  - split; assumption.
Defined.

(** The host of the counterexample is a consistent comparator. *)
Lemma hyphenFirstCompare_flip a b :
  Z.sgn (hyphenFirstCompare b a) = - Z.sgn (hyphenFirstCompare a b).
Proof. apply compareUnits_flip. Qed.

Lemma hyphenFirstCompare_trans a b c :
  hyphenFirstCompare a b ≤ 0 → hyphenFirstCompare b c ≤ 0 →
  hyphenFirstCompare a c ≤ 0.
Proof. apply compareUnits_trans. Qed.

(** C3 as stated fails: the order is that of the locale, not the
    lexicographic order of the code units.  On a host that puts the
    hyphen before the star, a bullet text is shown before a bold text,
    while as code units the star comes first; the table is then not
    sorted in code-unit order, which leaves the two papers as they
    were. *)
Lemma sorter_order_is_the_locale_s_counterexample :
  let p1 := mkPaper "p1" "a.pdf" "First" in
  let p2 := mkPaper "p2" "b.pdf" "Second" in
  let mc := mkPoint "Model" [("p1", "**MRI**"); ("p2", "- Cox")] in
  let codeUnitOrder a b :=
    compareUnits (sortKey asciiLower mc a) (sortKey asciiLower mc b) ≤ 0 in
  transposed markupPapers (Some markupMatrix) = [p1; p2]
  ∧ tablePapers asciiLower hyphenFirstCompare markupPapers (Some markupMatrix)
    = [p2; p1]
  ∧ StronglySorted codeUnitOrder [p1; p2]
  ∧ ¬ StronglySorted codeUnitOrder
        (tablePapers asciiLower hyphenFirstCompare markupPapers (Some markupMatrix)).
Proof.
  intros p1 p2 mc codeUnitOrder. split_and!.
  - by vm_compute.
  - by vm_compute.
  - repeat constructor. by vm_compute.
  - assert (tablePapers asciiLower hyphenFirstCompare markupPapers
              (Some markupMatrix) = [p2; p1]) as -> by by vm_compute.
    intros Hsorted. apply StronglySorted_inv in Hsorted as [_ Hhead].
    apply Forall_cons in Hhead as [Hhead _]. by vm_compute in Hhead.
Qed.

(** ** CsvExporter *)

Lemma relevantPapers_transposed papers points :
  relevantPapers papers points = transposed papers (Some points).
Proof.
  unfold relevantPapers, transposed, activeResultIds.
  destruct points as [|first rest]; [|done].
  apply list_filter_iff. intros p. unfold Object_keys.
  rewrite dom_empty_L, elements_empty. done.
Qed.

Lemma downloadCSV_output papers points selectedIds :
  (downloadCSV papers (Some points) selectedIds).2
  = if decide (size selectedIds = 0%nat) then None
    else Some (csvPrefix ++ csvText papers points).
Proof. unfold downloadCSV. by case_decide. Qed.

(** The data fields are quoted: in the insight of the specification's
    example each double quote is written twice, the hyphen becomes the
    bullet, and the whole stands between double quotes. *)
Lemma exportedInsight_example :
  exportedInsight commaPoint (mkPaper "p1" "a.pdf" "First")
  = [DQUOTE] ++ units "He said " ++ [DQUOTE; DQUOTE] ++ units "hi"
    ++ [DQUOTE; DQUOTE] ++ units " " ++ [BULLET] ++ units " ok" ++ [DQUOTE].
Proof. by vm_compute. Qed.

(** The header line starts with the two labels as they are. *)
Lemma csvHeaders_raw points :
  ∃ names, join [COMMA] (csvHeaders points)
           = units "Paper Title,Authors/Year (Ref)" ++ names.
Proof.
  unfold csvHeaders. destruct (criteria <$> points) as [|name names].
  - by exists [].
  - exists ([COMMA] ++ join [COMMA] (name :: names)). by vm_compute.
Qed.

(** C4 (the code departs from the claim). The data rows are quoted and
    escaped, the header row is not: the two fixed labels and the
    dimension names are joined as they are.  For [commaMatrix] the
    first line of the file is
      Paper Title,Authors/Year (Ref),Methods, Tools
    without any quote, the comma of the dimension name splitting it into
    four fields, while the three fields of the data row are quoted. *)
Theorem csv_header_row_is_written_raw :
  (downloadCSV [mkPaper "p1" "a.pdf" "First"] (Some commaMatrix) {[ units "p1" ]}).2
  = Some (csvPrefix
          ++ units "Paper Title,Authors/Year (Ref),Methods, Tools" ++ [LF]
          ++ quoted (units "First") ++ [COMMA] ++ quoted (units "a.pdf") ++ [COMMA]
          ++ quoted (units "He said " ++ [DQUOTE] ++ units "hi" ++ [DQUOTE]
                     ++ units " " ++ [BULLET] ++ units " ok"))
  ∧ ∀ papers points,
      ∃ rest, csvText papers points
              = units "Paper Title,Authors/Year (Ref)" ++ rest.
Proof.
  split; [by vm_compute|]. intros papers points. unfold csvText.
  destruct (csvHeaders_raw points) as [names ->].
  destruct (csvRow points <$> relevantPapers papers points); cbn [join];
    rewrite <- ?app_assoc; eauto.
Qed.

(** C5, as the code has it. The rows of the file are those of the
    Transposer's baseline list, the input documents whose id is a key of
    the first dimension in their original order; the Sorter is not
    applied, and its table is a rearrangement of that list. *)
Theorem csv_rows_follow_baseline_order papers points :
  relevantPapers papers points = transposed papers (Some points)
  ∧ csvText papers points
    = join [LF] (join [COMMA] (csvHeaders points)
                   :: (csvRow points <$> transposed papers (Some points)))
  ∧ (∀ selectedIds,
       (downloadCSV papers (Some points) selectedIds).2
       = if decide (size selectedIds = 0%nat) then None
         else Some (csvPrefix ++ csvText papers points))
  ∧ (∀ toLowerCase localeCompare,
       tablePapers toLowerCase localeCompare papers (Some points)
       ≡ₚ transposed papers (Some points)).
Proof.
  split_and!.
  - apply relevantPapers_transposed.
  - unfold csvText. by rewrite relevantPapers_transposed.
  - intros. apply downloadCSV_output.
  - intros. unfold tablePapers. destruct (modelCriteria _ _); [|done].
    apply sort_Permutation.
Qed.

(** C5 as stated fails: with [sampleMatrix] the table shows the second
    paper first (cox before mri), the file keeps the first paper first. *)
Lemma csv_rows_in_table_order_counterexample :
  let p1 := mkPaper "p1" "a.pdf" "First" in
  let p2 := mkPaper "p2" "b.pdf" "Second" in
  tablePapers asciiLower compareUnits samplePapers (Some sampleMatrix) = [p2; p1]
  ∧ relevantPapers samplePapers sampleMatrix = [p1; p2]
  ∧ (downloadCSV samplePapers (Some sampleMatrix) {[ units "p1"; units "p2" ]}).2
    = Some (csvPrefix
            ++ join [LF] (join [COMMA] (csvHeaders sampleMatrix)
                            :: (csvRow sampleMatrix <$> [p1; p2])))
  ∧ (downloadCSV samplePapers (Some sampleMatrix) {[ units "p1"; units "p2" ]}).2
    ≠ Some (csvPrefix
            ++ join [LF] (join [COMMA] (csvHeaders sampleMatrix)
                            :: (csvRow sampleMatrix
                                  <$> tablePapers asciiLower compareUnits
                                        samplePapers (Some sampleMatrix)))).
Proof. by vm_compute. Qed.

Lemma size_zero_iff (selectedIds : gset jsstring) :
  size selectedIds = 0%nat ↔ selectedIds = ∅.
Proof. by rewrite size_empty_iff, leibniz_equiv_iff. Qed.

(** *** [encodeURI] *)

Lemma isUnescaped_ascii c : isUnescaped c = true → (c < 128)%N.
Proof.
  unfold isUnescaped. rewrite !orb_true_iff, !andb_true_iff, !N.leb_le.
  intros [[[?|?]|?]|Hc]; [lia..|].
  apply bool_decide_eq_true in Hc.
  repeat (apply elem_of_cons in Hc as [->|Hc]; [lia|]).
  by apply elem_of_nil in Hc.
Qed.

Lemma isUnescaped_not_surrogate c :
  isUnescaped c = true → isLeadSurrogate c = false ∧ isTrailSurrogate c = false.
Proof.
  intros Hc%isUnescaped_ascii. unfold isLeadSurrogate, isTrailSurrogate.
  split; apply andb_false_iff; left; apply N.leb_gt; lia.
Qed.

Lemma lead_is_not_trail c : isLeadSurrogate c = true → isTrailSurrogate c = false.
Proof.
  unfold isLeadSurrogate, isTrailSurrogate.
  rewrite andb_true_iff, !N.leb_le. intros [_ ?].
  apply andb_false_iff. left. apply N.leb_gt. lia.
Qed.

(** [encodeURI] throws exactly on the texts that are not well formed. *)
Lemma encodeURI_throws_upto n : ∀ s,
  (length s ≤ n)%nat → (encodeURI s = None ↔ isWellFormed s = false).
Proof.
  induction n as [|n IH]; intros [|c s] Hn; cbn in Hn; try lia; [done..|].
  cbn [encodeURI isWellFormed].
  destruct (isUnescaped c) eqn:Hu.
  - destruct (isUnescaped_not_surrogate c Hu) as [-> ->]. cbn [negb andb].
    rewrite fmap_None. apply IH. lia.
  - destruct (isLeadSurrogate c) eqn:Hlead.
    + destruct s as [|c2 s]; [done|].
      destruct (isTrailSurrogate c2); cbn [andb]; [|done].
      rewrite fmap_None. apply IH. cbn in Hn. lia.
    + destruct (isTrailSurrogate c); cbn [negb andb]; [done|].
      rewrite fmap_None. apply IH. lia.
Qed.

Lemma encodeURI_throws s : encodeURI s = None ↔ isWellFormed s = false.
Proof. by apply (encodeURI_throws_upto (length s)). Qed.

(** *** The handler on the page *)

Section PageFacts.
Implicit Types (h : gmap Heap.loc Page.object) (o : Page.object).

Local Abbreviation notMatrix := Page.notMatrix.

(** Writing an object that is not of the matrix where none of the
    matrix is leaves the matrix objects as they are. *)
Lemma matrixPart_insert h (l : Heap.loc) o :
  notMatrix o →
  (∀ o', h !! l = Some o' → notMatrix o') →
  Page.matrixPart (<[l := o]> h) = Page.matrixPart h.
Proof.
  intros Ho Hold. unfold Page.matrixPart. apply map_eq. intros i.
  rewrite !lookup_omap. destruct (decide (i = l)) as [->|Hne].
  - rewrite lookup_insert_eq. destruct o; [done|..];
      (destruct (h !! l) as [o'|] eqn:Hl; [|done];
       specialize (Hold o' eq_refl); by destruct o').
  - by rewrite lookup_insert_ne.
Qed.

Lemma startDownload_spec h (body : Heap.loc) children (encodedUri : jsstring) :
  h !! body = Some (Page.BodyObj children) →
  ∃ h',
    Page.startDownload h body encodedUri
    = Some (h', Page.Downloaded encodedUri (units "neurolit_comparison.csv"))
    ∧ Page.matrixPart h' = Page.matrixPart h.
Proof.
  intros Hbody. unfold Page.startDownload.
  set (link := fresh (dom h)).
  assert (h !! link = None) as Hlink by apply not_elem_of_dom, is_fresh.
  assert (body ≠ link) as Hne by congruence.
  unfold Page.setAttribute. rewrite lookup_insert_eq. cbn [mbind option_bind].
  rewrite lookup_insert_eq. cbn [mbind option_bind].
  unfold Page.appendChild. rewrite !lookup_insert_ne, Hbody by done.
  cbn [mbind option_bind].
  unfold Page.click. rewrite lookup_insert_ne, lookup_insert_eq by done.
  cbn [mbind option_bind].
  unfold Page.removeChild. rewrite (lookup_insert_eq _ body).
  cbn [mbind option_bind default].
  rewrite lookup_insert_ne
    by (apply (bool_decide_unpack _); vm_compute; exact I).
  rewrite lookup_insert_eq. cbn [default].
  eexists. split; [reflexivity|].
  rewrite !matrixPart_insert; try done.
    + intros o'. rewrite Hlink. done.
    + intros o'. rewrite lookup_insert_eq. by intros [= <-].
    + intros o'. rewrite lookup_insert_eq. by intros [= <-].
    + intros o'. rewrite !lookup_insert_ne, Hbody by done. by intros [= <-].
    + intros o'. rewrite lookup_insert_eq. by intros [= <-].
Qed.
End PageFacts.

(** C6, as the code has it. The handler ends without output in two
    ways.  It returns at its guard exactly when the matrix is absent or
    no paper is selected.  Past the guard it builds the text, header row
    first (alone when no document is in the first dimension's key set),
    and hands it to [encodeURI], which throws when the text holds a
    surrogate that is not half of a pair; otherwise the download is
    started with the encoded text.  In every case the handler writes
    only to the anchor it creates and to the body: the objects of the
    matrix are what they were, and the reference of the state stands
    for the same matrix. *)
Theorem export_gate_is_matrix_and_selection
    (h : gmap Heap.loc Page.object) (body : Heap.loc) (children : list Heap.loc)
    (papers : list PaperAnalysis) (comparisonResult : option Heap.loc)
    (state : option (list ComparisonPoint)) (selectedIds : gset jsstring) :
  h !! body = Some (Page.BodyObj children) →
  Page.readState h comparisonResult = Some state →
  ∃ h' outcome,
    Page.downloadCSV h body papers comparisonResult selectedIds
    = Some (h', outcome)
    ∧ Page.matrixPart h' = Page.matrixPart h
    ∧ Page.readState h' comparisonResult = Some state
    ∧ (outcome = Page.NoOutput ↔ state = None ∨ selectedIds = ∅)
    ∧ (∀ points,
         state = Some points → selectedIds ≠ ∅ →
         let csvContent := csvPrefix ++ csvText papers points in
         (downloadCSV papers state selectedIds).2 = Some csvContent
         ∧ (transposed papers (Some points) = [] →
            csvText papers points = join [COMMA] (csvHeaders points))
         ∧ (isWellFormed csvContent = false ↔ outcome = Page.URIError)
         ∧ (isWellFormed csvContent = true ↔
            ∃ encodedUri,
              encodeURI csvContent = Some encodedUri
              ∧ outcome
                = Page.Downloaded encodedUri (units "neurolit_comparison.csv"))).
Proof.
  intros Hbody Hstate. unfold Page.downloadCSV.
  destruct comparisonResult as [array|]; cbn in Hstate.
  2:{ injection Hstate as <-. exists h, Page.NoOutput.
      split_and!; [done|done|done|split; auto|done]. }
  destruct (Heap.readMatrix (Page.matrixPart h) array) as [points|] eqn:Hread;
    [|done].
  injection Hstate as <-.
  assert (Page.readState h (Some array) = Some (Some points)) as Hsame
    by (cbn; by rewrite Hread).
  destruct (decide (size selectedIds = 0%nat)) as [Hsel|Hsel];
    rewrite size_zero_iff in Hsel.
  { exists h, Page.NoOutput.
    split_and!; [done|done|done|split; auto|]. by intros points' _ Hne. }
  cbn [mbind option_bind].
  assert ((downloadCSV papers (Some points) selectedIds).2
          = Some (csvPrefix ++ csvText papers points)) as Hcontent.
  { rewrite downloadCSV_output. apply decide_False. by rewrite size_zero_iff. }
  assert (transposed papers (Some points) = [] →
          csvText papers points = join [COMMA] (csvHeaders points)) as Hheader.
  { intros Hempty. unfold csvText.
    by rewrite relevantPapers_transposed, Hempty. }
  destruct (encodeURI (csvPrefix ++ csvText papers points)) as [uri|] eqn:Huri.
  - destruct (startDownload_spec h body children uri Hbody) as (h' & -> & Hpart).
    assert (isWellFormed (csvPrefix ++ csvText papers points) = true) as Hwf.
    { destruct (isWellFormed _) eqn:Hwf; [done|].
      apply encodeURI_throws in Hwf. congruence. }
    exists h', (Page.Downloaded uri (units "neurolit_comparison.csv")).
    split_and!; [done|done| | |].
    + cbn. by rewrite Hpart, Hread.
    + split; [done|]. by intros [|].
    + intros points' [= <-] _. cbv zeta. rewrite Hwf, Huri.
      split_and!; [done|done|done|]. split; [eauto|done].
  - pose proof (proj1 (encodeURI_throws _) Huri) as Hwf.
    exists h, Page.URIError. split_and!; [done|done|done| |].
    + split; [done|]. by intros [|].
    + intros points' [= <-] _. cbv zeta. rewrite Hwf, Huri.
      split_and!; [done|done|done|]. split; [done|]. by intros (? & ? & ?).
Qed.

Lemma export_gate_is_matrix_and_selection_witness :
  ∃ h',
    Page.downloadCSV strayPage.1 strayPage.2 samplePapers (Some strayArray)
      {[ units "p1"; units "p2" ]}
    = Some (h', Page.Downloaded
                  (units "data:text/csv;charset=utf-8,Paper%20Title,Authors/Year%20(Ref),Study%20Design")
                  (units "neurolit_comparison.csv"))
    ∧ Page.readState h' (Some strayArray) = Some (Some strayMatrix).
Proof.
  destruct (export_gate_is_matrix_and_selection strayPage.1 strayPage.2 []
              samplePapers (Some strayArray) (Some strayMatrix)
              {[ units "p1"; units "p2" ]})
    as (h' & outcome & Hrun & _ & Hread & _ & Hout).
  - by vm_compute.
  - by vm_compute.
  - destruct (Hout strayMatrix) as (_ & _ & _ & Hdone).
    + reflexivity.
    + apply (bool_decide_unpack _). vm_compute. exact I.
    + destruct (proj1 Hdone) as (uri & Huri & ->); [by vm_compute|].
      exists h'. split; [|exact Hread].
      rewrite Hrun. do 3 f_equal.
      assert (encodeURI (csvPrefix ++ csvText samplePapers strayMatrix)
              = Some (units "data:text/csv;charset=utf-8,Paper%20Title,Authors/Year%20(Ref),Study%20Design"))
        as Hval by by vm_compute.
      congruence.
Defined.

(** A title that holds half of a surrogate pair: the guard is passed,
    [encodeURI] throws, nothing is downloaded and the heap is the same. *)
Lemma export_throws_on_lone_surrogate :
  Page.downloadCSV samplePage.1 samplePage.2 brokenTitlePapers (Some sampleArray)
    {[ units "p1" ]}
  = Some (samplePage.1, Page.URIError).
Proof. by vm_compute. Qed.

(** C6 as stated fails: with a matrix keyed by an id that no paper has,
    the table is empty and yet a file holding the header row is written. *)
Lemma export_with_empty_table_counterexample :
  tablePapers asciiLower compareUnits samplePapers (Some strayMatrix) = []
  ∧ (downloadCSV samplePapers (Some strayMatrix) {[ units "p1"; units "p2" ]}).2
    = Some (csvPrefix ++ units "Paper Title,Authors/Year (Ref),Study Design")
  ∧ encodeURI (csvPrefix ++ units "Paper Title,Authors/Year (Ref),Study Design")
    = Some (units "data:text/csv;charset=utf-8,Paper%20Title,Authors/Year%20(Ref),Study%20Design").
Proof. by vm_compute. Qed.

(** ** CellEditor *)

(** C7. Typing a draft [d] over the baseline [b] changes the cell's
    local state only.  Losing focus then calls [onSave] with [d],
    whether or not [d] is [b], and the insight stored for the cell is
    [d] afterwards.  Escape instead makes no [onSave] call: the matrix
    is the same afterwards, the stored insight is still [b], and the
    local state is reset to [b]. *)
Theorem cell_commit_and_cancel points (idx : nat) point (paperId d : jsstring) :
  points !! idx = Some point →
  let b := initialValue (Some points) idx paperId in
  let run := performAll paperId (criteria point) in
  let typed := run {| value := b; store := Some points |} (onChange d) in
  let committed := run typed (handleBlur (value typed)) in
  let cancelled := run typed (handleKeyDown b (units "Escape")) in
  value typed = d
  ∧ store typed = Some points
  ∧ handleBlur (value typed) = [SetIsEditing false; OnSave d]
  ∧ store committed = updateCell (Some points) paperId (criteria point) d
  ∧ initialValue (store committed) idx paperId = d
  ∧ (∀ v, OnSave v ∉ handleKeyDown b (units "Escape"))
  ∧ store cancelled = Some points
  ∧ initialValue (store cancelled) idx paperId = b
  ∧ value cancelled = b.
Proof.
  intros Hidx b run typed committed cancelled. split_and!; try done.
  - subst committed typed run. cbn. unfold initialValue. cbn.
    rewrite list_lookup_fmap, Hidx. cbn.
    rewrite decide_True by done. unfold insightOf. cbn.
    by rewrite lookup_insert_eq.
  - intros v. unfold handleKeyDown. rewrite decide_True by done.
    rewrite !not_elem_of_cons. split_and!; [done..|]. apply not_elem_of_nil.
Qed.

Lemma cell_commit_and_cancel_witness :
  let run := performAll (units "p1") (units "Key Findings") in
  let typed :=
    run {| value := units "abc"; store := Some abcMatrix |} (onChange (units "abcd")) in
  initialValue (Some abcMatrix) 0 (units "p1") = units "abc"
  ∧ initialValue (store (run typed (handleBlur (value typed)))) 0 (units "p1")
    = units "abcd"
  ∧ initialValue
      (store (run typed (handleKeyDown (units "abc") (units "Escape")))) 0
      (units "p1")
    = units "abc".
Proof.
  intros run typed.
  destruct (cell_commit_and_cancel abcMatrix 0
              (mkPoint "Key Findings" [("p1", "abc")]) (units "p1") (units "abcd"))
    as (_ & _ & _ & _ & Hcommit & _ & _ & Hcancel & _).
  - reflexivity.
  - split_and!; [reflexivity | exact Hcommit | exact Hcancel].
Defined.

(** ** Viewing mode *)

(** A match is an opening pair of stars, a body without line
    terminators, and the closing pair. *)
Lemma lazyUntilClose_spec s : ∀ body rest,
  lazyUntilClose s = Some (body, rest) →
  s = body ++ [STAR; STAR] ++ rest
  ∧ Forall (λ c, isLineTerminator c = false) body.
Proof.
  induction s as [|c s IH]; intros body rest; cbn [lazyUntilClose]; [done|].
  destruct (startsWith (c :: s) [STAR; STAR]) eqn:Hclose.
  - intros [= <- <-]. apply startsWith_spec in Hclose as [rest' [= -> ->]].
    by split.
  - destruct (isLineTerminator c) eqn:Hc; [done|].
    destruct (lazyUntilClose s) as [[body' rest']|]; [|done].
    intros [= <- <-]. destruct (IH body' rest' eq_refl) as [-> Hbody].
    split; [done|by constructor].
Qed.

Lemma matchBold_spec s m rest :
  matchBold s = Some (m, rest) →
  s = m ++ rest
  ∧ ∃ body, m = [STAR; STAR] ++ body ++ [STAR; STAR]
            ∧ Forall (λ c, isLineTerminator c = false) body.
Proof.
  unfold matchBold. destruct (startsWith s [STAR; STAR]) eqn:Hopen; [|done].
  apply startsWith_spec in Hopen as [s' ->]. cbn [drop app]. rewrite drop_0.
  destruct (lazyUntilClose s') as [[body rest']|] eqn:Hbody; [|done].
  intros [= <- <-]. apply lazyUntilClose_spec in Hbody as [-> Hbody].
  split; [cbn; by rewrite <- app_assoc|eauto].
Qed.

Lemma matchBold_shorter s m rest :
  matchBold s = Some (m, rest) → (length rest < length s)%nat.
Proof.
  intros (-> & body & -> & _)%matchBold_spec.
  rewrite !length_app. cbn. lia.
Qed.

(** The number of units of the line is fuel enough for [splitBoldFrom]:
    the result no longer depends on the fuel, and the pieces, put
    together again, are the line. *)
Lemma splitBoldFrom_fuel fuel1 : ∀ fuel2 pending s,
  (length s ≤ fuel1)%nat → (length s ≤ fuel2)%nat →
  splitBoldFrom fuel1 pending s = splitBoldFrom fuel2 pending s.
Proof.
  induction fuel1 as [|fuel1 IH]; intros fuel2 pending [|c s] H1 H2;
    cbn in H1, H2; try lia.
  - by destruct fuel2.
  - by destruct fuel2.
  - destruct fuel2 as [|fuel2]; [lia|]. cbn [splitBoldFrom].
    destruct (matchBold (c :: s)) as [[m rest]|] eqn:Hm.
    + apply matchBold_shorter in Hm. cbn in Hm.
      f_equal. f_equal. apply IH; lia.
    + apply IH; lia.
Qed.

Lemma splitBoldFrom_concat fuel : ∀ pending s,
  (length s ≤ fuel)%nat →
  concat (splitBoldFrom fuel pending s) = reverse pending ++ s.
Proof.
  induction fuel as [|fuel IH]; intros pending [|c s] Hfuel;
    cbn in Hfuel; try lia; cbn [splitBoldFrom concat].
  - by rewrite !app_nil_r.
  - by rewrite !app_nil_r.
  - destruct (matchBold (c :: s)) as [[m rest]|] eqn:Hm.
    + pose proof (matchBold_shorter _ _ _ Hm) as Hlen. cbn in Hlen.
      apply matchBold_spec in Hm as [-> _].
      cbn [concat]. rewrite IH by lia. by rewrite reverse_nil.
    + rewrite IH by lia. by rewrite reverse_cons, <- app_assoc.
Qed.

Lemma splitBold_concat s : concat (splitBold s) = s.
Proof. unfold splitBold. by rewrite splitBoldFrom_concat. Qed.

(** The example of the specification: a bullet holding the emphasized
    span, then a plain paragraph.  The empty pieces around the match are
    those that [split] returns. *)
Lemma renderContent_example :
  renderContent (units "- **p<0.001**" ++ [LF] ++ units "plain line")
  = Lines [ BulletItem [Span []; Strong (units "p<0.001"); Span []];
            Paragraph [Span (units "plain line")] ].
Proof. by vm_compute. Qed.

(** A pair of delimiters is paired with the nearest closing pair, and an
    opening pair without a closing one stays literal when other text
    surrounds it. *)
Lemma renderContent_unterminated_after_text :
  renderContent (units "a **b** c **d")
  = Lines [ Paragraph [Span (units "a "); Strong (units "b");
                       Span (units " c **d")] ].
Proof. by vm_compute. Qed.

(** C8 (the code departs from the claim). A piece that [split] leaves
    unmatched is still taken for an emphasized span when it starts and
    ends with two stars, which the pieces of two and of three stars do:
    a lone pair of stars, and a pair left over after a match, render as
    an empty emphasized span, the stars gone. *)
Theorem renderContent_unmatched_stars_vanish :
  renderContent (units "**") = Lines [ Paragraph [Strong []] ]
  ∧ renderContent (units "**") ≠ Lines [ Paragraph [Span (units "**")] ]
  ∧ renderContent (units "***") = Lines [ Paragraph [Strong []] ]
  ∧ renderContent (units "**a****")
    = Lines [ Paragraph [Span []; Strong (units "a"); Strong []] ].
Proof. by vm_compute. Qed.

(** * Further properties *)

(** A closed decidable statement, settled by evaluation. *)
Ltac decide_closed := apply (bool_decide_unpack _); vm_compute; exact I.

(** ** Edits compose *)

Lemma updatePoint_twice doc dim v1 v2 c :
  updatePoint doc dim v2 (updatePoint doc dim v1 c) = updatePoint doc dim v2 c.
Proof.
  destruct (decide (criteria c = dim)) as [Hc|Hc].
  - rewrite (updatePoint_hit doc dim v1 c Hc).
    rewrite !updatePoint_hit by done. cbn. by rewrite insert_insert_eq.
  - by rewrite (updatePoint_miss doc dim v1 c Hc).
Qed.

(** X1. Two edits of the same cell: the later text stands, and the
    matrix is the one that the later edit alone gives.  In particular
    saving the same text twice is the same as saving it once. *)
Theorem updateCell_last_write_wins comparisonResult (doc dim v1 v2 : jsstring) :
  updateCell (updateCell comparisonResult doc dim v1) doc dim v2
  = updateCell comparisonResult doc dim v2.
Proof.
  destruct comparisonResult as [points|]; [|done].
  rewrite !updateCell_Some. f_equal.
  rewrite <- list_fmap_compose. apply list_fmap_ext.
  intros _ c _. apply updatePoint_twice.
Qed.

Lemma updatePoint_commute doc1 dim1 v1 doc2 dim2 v2 c :
  doc1 ≠ doc2 ∨ dim1 ≠ dim2 →
  updatePoint doc2 dim2 v2 (updatePoint doc1 dim1 v1 c)
  = updatePoint doc1 dim1 v1 (updatePoint doc2 dim2 v2 c).
Proof.
  intros Hcell.
  destruct (decide (criteria c = dim1)) as [H1|H1];
    destruct (decide (criteria c = dim2)) as [H2|H2].
  - destruct Hcell as [Hdoc|Hdim]; [|congruence].
    rewrite (updatePoint_hit doc1 dim1 v1 c H1), (updatePoint_hit doc2 dim2 v2 c H2).
    rewrite !updatePoint_hit by (cbn; congruence). cbn.
    rewrite insert_insert_ne by done. congruence.
  - rewrite (updatePoint_miss doc2 dim2 v2 c H2).
    rewrite (updatePoint_hit doc1 dim1 v1 c H1).
    rewrite updatePoint_miss; [done|]. cbn. congruence.
  - rewrite (updatePoint_miss doc1 dim1 v1 c H1).
    rewrite (updatePoint_hit doc2 dim2 v2 c H2).
    rewrite updatePoint_miss; [done|]. cbn. congruence.
  - by rewrite (updatePoint_miss doc1 dim1 v1 c H1),
      (updatePoint_miss doc2 dim2 v2 c H2), updatePoint_miss.
Qed.

(** X2. Edits of two different cells (another document or another
    dimension name) can be made in either order: the matrix is the
    same. *)
Theorem updateCell_edits_commute comparisonResult
    (doc1 dim1 v1 doc2 dim2 v2 : jsstring) :
  doc1 ≠ doc2 ∨ dim1 ≠ dim2 →
  updateCell (updateCell comparisonResult doc1 dim1 v1) doc2 dim2 v2
  = updateCell (updateCell comparisonResult doc2 dim2 v2) doc1 dim1 v1.
Proof.
  intros Hcell. destruct comparisonResult as [points|]; [|done].
  rewrite !updateCell_Some. f_equal.
  rewrite <- !list_fmap_compose. apply list_fmap_ext.
  intros _ c _. by apply updatePoint_commute.
Qed.

Lemma updateCell_edits_commute_witness :
  updateCell (updateCell (Some sampleMatrix) (units "p1") (units "Key Findings")
                (units "a")) (units "p2") (units "Study Design") (units "b")
  = updateCell (updateCell (Some sampleMatrix) (units "p2") (units "Study Design")
                  (units "b")) (units "p1") (units "Key Findings") (units "a").
Proof.
  apply (updateCell_edits_commute (Some sampleMatrix)).
  left. decide_closed.
Defined.

(** X3. Whatever the dimension names are (distinct or not), an edit
    keeps the number, the names and the order of the dimensions, leaves
    every dimension with another name as it is, and leaves the insights
    of every other document as they are in every dimension. *)
Theorem updateCell_frame (points : list ComparisonPoint) (doc dim text : jsstring) :
  ∃ points',
    updateCell (Some points) doc dim text = Some points'
    ∧ length points' = length points
    ∧ criteria <$> points' = criteria <$> points
    ∧ Forall2 (λ c c', (criteria c = dim ∨ c' = c)
                       ∧ delete doc (paperInsights c')
                         = delete doc (paperInsights c))
        points points'.
Proof.
  exists (updatePoint doc dim text <$> points). split_and!.
  - apply updateCell_Some.
  - apply length_fmap.
  - apply updatePoint_names.
  - apply Forall2_fmap_r, Forall_Forall2_diag, Forall_forall. intros c _.
    unfold compose. cbv beta. destruct (decide (criteria c = dim)) as [Hc|Hc].
    + rewrite updatePoint_hit by done. cbn. split; [by left|].
      apply delete_insert_eq.
    + rewrite updatePoint_miss by done. auto.
Qed.

(** ** Edits and the table *)

Lemma activeDocumentIds_updateCell first rest (doc dim text : jsstring) :
  activeDocumentIds (updateCell (Some (first :: rest)) doc dim text)
  = if decide (criteria first = dim) then {[ doc ]} ∪ dom (paperInsights first)
    else dom (paperInsights first).
Proof.
  rewrite updateCell_Some, fmap_cons, activeDocumentIds_cons.
  case_decide as Hc.
  - rewrite updatePoint_hit by done. cbn. apply dom_insert_L.
  - by rewrite updatePoint_miss.
Qed.

Lemma edit_keeps_the_active_set_aux papers (points : list ComparisonPoint)
    (doc dim text : jsstring) :
  doc ∈ activeDocumentIds (Some points) →
  transposed papers (updateCell (Some points) doc dim text)
  = transposed papers (Some points).
Proof.
  intros Hdoc. unfold transposed. apply list_filter_iff. intros p.
  rewrite !elem_of_activeResultIds.
  destruct points as [|first rest]; [done|].
  rewrite activeDocumentIds_updateCell, activeDocumentIds_cons.
  rewrite activeDocumentIds_cons in Hdoc. case_decide; [|done].
  by rewrite (subseteq_union_1_L {[ doc ]}) by by apply singleton_subseteq_l.
Qed.

(** X4. The table offers cells only for documents of the active set,
    and an edit made for such a document, in any dimension, leaves the
    active set and the list of documents before sorting as they are. *)
Theorem edit_keeps_the_active_set papers comparisonResult (doc dim text : jsstring) :
  doc ∈ activeDocumentIds comparisonResult →
  activeDocumentIds (updateCell comparisonResult doc dim text)
  = activeDocumentIds comparisonResult
  ∧ transposed papers (updateCell comparisonResult doc dim text)
    = transposed papers comparisonResult.
Proof.
  intros Hdoc.
  assert (activeDocumentIds (updateCell comparisonResult doc dim text)
          = activeDocumentIds comparisonResult) as Hsame.
  { destruct comparisonResult as [[|first rest]|]; [done| |done].
    rewrite activeDocumentIds_updateCell, activeDocumentIds_cons.
    rewrite activeDocumentIds_cons in Hdoc.
    case_decide; [|done].
    by apply subseteq_union_1_L, singleton_subseteq_l. }
  split; [done|]. unfold transposed. apply list_filter_iff. intros p.
  by rewrite !elem_of_activeResultIds, Hsame.
Qed.

Lemma edit_keeps_the_active_set_witness :
  transposed samplePapers
    (updateCell (Some sampleMatrix) (units "p2") (units "Study Design") (units "z"))
  = transposed samplePapers (Some sampleMatrix).
Proof.
  apply (edit_keeps_the_active_set samplePapers (Some sampleMatrix)).
  decide_closed.
Defined.

Section TableFacts.
Variable toLowerCase : jsstring → jsstring.
Variable localeCompare : jsstring → jsstring → Z.

Lemma modelCriteria_cons c points :
  modelCriteria toLowerCase (c :: points)
  = if isModelCriteria toLowerCase c then Some c
    else modelCriteria toLowerCase points.
Proof.
  unfold modelCriteria. cbn. destruct (isModelCriteria toLowerCase c).
  - by rewrite decide_True.
  - rewrite decide_False by done. rewrite <- option_fmap_compose.
    by destruct (list_find _ points) as [[??]|].
Qed.

Lemma isModelCriteria_updatePoint doc dim text c :
  isModelCriteria toLowerCase (updatePoint doc dim text c)
  = isModelCriteria toLowerCase c.
Proof. unfold isModelCriteria. by rewrite updatePoint_criteria. Qed.

(** The dimension the Sorter picks after an edit is the edited copy of
    the one it picked before. *)
Lemma modelCriteria_updatePoint doc dim text points :
  modelCriteria toLowerCase (updatePoint doc dim text <$> points)
  = updatePoint doc dim text <$> modelCriteria toLowerCase points.
Proof.
  induction points as [|c points IH]; [done|].
  rewrite fmap_cons, !modelCriteria_cons, isModelCriteria_updatePoint.
  by destruct (isModelCriteria toLowerCase c).
Qed.

(** X5. An edit for a document of the table in a dimension other than
    the one the Sorter picks leaves the table as it is: same documents,
    same order. *)
Theorem edit_outside_model_dimension_keeps_table
    papers (points : list ComparisonPoint) (doc dim text : jsstring) :
  doc ∈ activeDocumentIds (Some points) →
  (∀ mc, modelCriteria toLowerCase points = Some mc → criteria mc ≠ dim) →
  tablePapers toLowerCase localeCompare papers
    (updateCell (Some points) doc dim text)
  = tablePapers toLowerCase localeCompare papers (Some points).
Proof.
  intros Hdoc Hdim.
  pose proof (edit_keeps_the_active_set_aux papers points doc dim text Hdoc)
    as Hbase.
  unfold tablePapers. rewrite Hbase.
  rewrite updateCell_Some, modelCriteria_updatePoint.
  destruct (modelCriteria toLowerCase points) as [mc|]; [|done]. cbn.
  by rewrite updatePoint_miss by by apply Hdim.
Qed.
End TableFacts.

Lemma edit_outside_model_dimension_keeps_table_witness :
  tablePapers asciiLower compareUnits samplePapers
    (updateCell (Some sampleMatrix) (units "p2") (units "Key Findings") (units "a"))
  = tablePapers asciiLower compareUnits samplePapers (Some sampleMatrix).
Proof.
  apply edit_outside_model_dimension_keeps_table.
  - decide_closed.
  - intros mc. rewrite modelCriteria_sample. intros [= <-].
    decide_closed.
Defined.

Section SortedTable.
Variable toLowerCase : jsstring → jsstring.
Variable localeCompare : jsstring → jsstring → Z.
Hypothesis localeCompare_flip :
  ∀ a b, Z.sgn (localeCompare b a) = - Z.sgn (localeCompare a b).
Hypothesis localeCompare_trans :
  ∀ a b c, localeCompare a b ≤ 0 → localeCompare b c ≤ 0 → localeCompare a c ≤ 0.

(** X6. When the documents before sorting already ascend by their
    lowercased text under the dimension the Sorter picks (the case, for
    one, when that dimension holds no text for any of them), the Sorter
    changes nothing: the table is that list. *)
Theorem sorted_baseline_is_kept papers (points : list ComparisonPoint) mc :
  modelCriteria toLowerCase points = Some mc →
  StronglySorted
    (λ a b, localeCompare (sortKey toLowerCase mc a) (sortKey toLowerCase mc b) ≤ 0)
    (transposed papers (Some points)) →
  tablePapers toLowerCase localeCompare papers (Some points)
  = transposed papers (Some points).
Proof.
  intros Hmc Hsorted. unfold tablePapers. rewrite Hmc. symmetry.
  apply sort_unique; try done.
  - intros a b. apply localeCompare_flip.
  - intros a b c. apply localeCompare_trans.
Qed.
End SortedTable.

Lemma sorted_baseline_is_kept_witness :
  tablePapers asciiLower compareUnits sortedPapers (Some sampleMatrix)
  = transposed sortedPapers (Some sampleMatrix).
Proof.
  apply (sorted_baseline_is_kept asciiLower compareUnits compareUnits_flip
           compareUnits_trans sortedPapers sampleMatrix
           (mkPoint "Model/Architecture/Tools Used" [("p1", "MRI"); ("p2", "Cox")])).
  - by vm_compute.
  - assert (transposed sortedPapers (Some sampleMatrix)
            = [mkPaper "p2" "b.pdf" "Second"; mkPaper "p1" "a.pdf" "First"])
      as -> by by vm_compute.
    repeat constructor. by vm_compute.
Defined.

(** ** A new paper and the table *)

(** X7. A newly analysed paper is put at the front of the library,
    before the papers that were there, which keep their order.  When its
    id is a key of the first dimension it becomes the first document of
    the list before sorting; when it is not, the table and the exported
    file are what they were. *)
Theorem new_paper_outside_matrix_changes_nothing
    (toLowerCase : jsstring → jsstring) (localeCompare : jsstring → jsstring → Z)
    papers newPaper comparisonResult selectedIds :
  handleAnalysisComplete papers newPaper = newPaper :: papers
  ∧ (id newPaper ∈ activeDocumentIds comparisonResult →
     transposed (handleAnalysisComplete papers newPaper) comparisonResult
     = newPaper :: transposed papers comparisonResult)
  ∧ (id newPaper ∉ activeDocumentIds comparisonResult →
     tablePapers toLowerCase localeCompare
       (handleAnalysisComplete papers newPaper) comparisonResult
     = tablePapers toLowerCase localeCompare papers comparisonResult
     ∧ (downloadCSV (handleAnalysisComplete papers newPaper) comparisonResult
          selectedIds).2
       = (downloadCSV papers comparisonResult selectedIds).2).
Proof.
  split_and!; [done| |].
  - intros Hin. unfold transposed, handleAnalysisComplete. rewrite filter_cons.
    rewrite decide_True; [done|]. by rewrite elem_of_activeResultIds.
  - intros Hnew.
    assert (transposed (handleAnalysisComplete papers newPaper) comparisonResult
            = transposed papers comparisonResult) as Hbase.
    { unfold transposed, handleAnalysisComplete. rewrite filter_cons.
      rewrite decide_False; [done|]. by rewrite elem_of_activeResultIds. }
    split.
    + unfold tablePapers. by rewrite Hbase.
    + destruct comparisonResult as [points|]; [|done].
      rewrite !downloadCSV_output. unfold csvText.
      by rewrite !relevantPapers_transposed, Hbase.
Qed.

Lemma new_paper_outside_matrix_changes_nothing_witness :
  tablePapers asciiLower compareUnits
    (handleAnalysisComplete samplePapers (mkPaper "p4" "d.pdf" "Fourth"))
    (Some sampleMatrix)
  = tablePapers asciiLower compareUnits samplePapers (Some sampleMatrix)
  ∧ transposed
      (handleAnalysisComplete [mkPaper "p1" "a.pdf" "First"]
         (mkPaper "p2" "b.pdf" "Second")) (Some sampleMatrix)
    = [mkPaper "p2" "b.pdf" "Second"; mkPaper "p1" "a.pdf" "First"].
Proof.
  split.
  - destruct (new_paper_outside_matrix_changes_nothing asciiLower compareUnits
                samplePapers (mkPaper "p4" "d.pdf" "Fourth") (Some sampleMatrix) ∅)
      as (_ & _ & Hout).
    apply Hout. decide_closed.
  - destruct (new_paper_outside_matrix_changes_nothing asciiLower compareUnits
                [mkPaper "p1" "a.pdf" "First"] (mkPaper "p2" "b.pdf" "Second")
                (Some sampleMatrix) ∅) as (_ & Hin & _).
    rewrite Hin by decide_closed. by vm_compute.
Defined.

(** ** Selecting papers *)

(** X8. A click on a paper changes the membership of that paper alone;
    a second click on it undoes the first; the number of selected papers
    goes up or down by one. *)
Theorem togglePaper_flips_one (selectedIds : gset jsstring) (id : jsstring) :
  togglePaper (togglePaper selectedIds id) id = selectedIds
  ∧ (∀ x, x ∈ togglePaper selectedIds id
          ↔ (x ≠ id ∧ x ∈ selectedIds) ∨ (x = id ∧ id ∉ selectedIds))
  ∧ size (togglePaper selectedIds id)
    = if decide (id ∈ selectedIds) then (size selectedIds - 1)%nat
      else S (size selectedIds).
Proof.
  unfold togglePaper. destruct (decide (id ∈ selectedIds)) as [Hin|Hout].
  - split_and!.
    + rewrite decide_False by (rewrite elem_of_difference, elem_of_singleton; tauto).
      apply set_eq. intros x.
      rewrite elem_of_union, elem_of_difference, !elem_of_singleton.
      destruct (decide (x = id)) as [->|]; tauto.
    + intros x. rewrite elem_of_difference, elem_of_singleton. tauto.
    + rewrite size_difference by by apply singleton_subseteq_l.
      by rewrite size_singleton.
  - split_and!.
    + rewrite decide_True by (rewrite elem_of_union, elem_of_singleton; tauto).
      apply set_eq. intros x.
      rewrite elem_of_difference, elem_of_union, !elem_of_singleton.
      destruct (decide (x = id)) as [->|]; tauto.
    + intros x. rewrite elem_of_union, elem_of_singleton.
      destruct (decide (x = id)) as [->|]; tauto.
    + rewrite size_union by (by apply disjoint_singleton_l).
      by rewrite size_singleton.
Qed.

(** ** Running a comparison *)

Lemma selected_papers_count (papers : list PaperAnalysis)
    (selectedIds : gset jsstring) :
  NoDup (id <$> papers) →
  (∀ x, x ∈ selectedIds → x ∈ id <$> papers) →
  length (filter (λ p, id p ∈ selectedIds) papers) = size selectedIds.
Proof.
  intros Hnd Hsub.
  set (chosen := filter (λ p, id p ∈ selectedIds) papers).
  assert (NoDup (id <$> chosen)) as Hnd'.
  { apply (sublist_NoDup _ (id <$> papers)); [exact Hnd|].
    apply fmap_sublist, sublist_filter. }

  rewrite <- (length_fmap id chosen), <- (size_list_to_set (C := gset jsstring))
    by done.
  f_equal. apply set_eq. intros x.
  rewrite elem_of_list_to_set, list_elem_of_fmap. split.
  - intros (p & -> & Hp). by apply list_elem_of_filter in Hp as [? _].
  - intros Hx. pose proof (Hsub x Hx) as Hlib.
    apply list_elem_of_fmap in Hlib as (p & -> & Hp).
    exists p. split; [done|]. by apply list_elem_of_filter.
Qed.

(** X9. With distinct paper ids and a selection made of ids of the
    library, a click on the compare button with two or more papers
    selected sends exactly the selected papers, as many as are selected
    and in library order, marks the view as comparing and clears the
    error; the matrix is not touched before the answer comes. *)
Theorem handleCompare_sends_the_selection (papers : list PaperAnalysis)
    (st : viewState) :
  NoDup (id <$> papers) →
  (∀ x, x ∈ st_selectedIds st → x ∈ id <$> papers) →
  (2 ≤ size (st_selectedIds st))%nat →
  ∃ st' selectedPapers,
    handleCompare_request papers st = Some (st', selectedPapers)
    ∧ length selectedPapers = size (st_selectedIds st)
    ∧ selectedPapers `sublist_of` papers
    ∧ (∀ p, p ∈ selectedPapers ↔ p ∈ papers ∧ id p ∈ st_selectedIds st)
    ∧ st_isComparing st' = true
    ∧ st_error st' = None
    ∧ st_selectedIds st' = st_selectedIds st
    ∧ st_comparisonResult st' = st_comparisonResult st.
Proof.
  intros Hnd Hsub Hsize. unfold handleCompare_request.
  rewrite decide_False by lia. eexists _, _. split_and!; try done.
  - by apply selected_papers_count.
  - apply sublist_filter.
  - intros p. rewrite list_elem_of_filter. tauto.
Qed.

Lemma handleCompare_sends_the_selection_witness :
  ∃ st' selectedPapers,
    handleCompare_request samplePapers sampleState = Some (st', selectedPapers)
    ∧ length selectedPapers = 2%nat.
Proof.
  destruct (handleCompare_sends_the_selection samplePapers sampleState)
    as (st' & selectedPapers & Hreq & Hlen & _).
  - decide_closed.
  - intros x Hx. cbn in Hx.
    apply elem_of_union in Hx as [Hx|Hx]; apply elem_of_singleton in Hx;
      subst x; decide_closed.
  - by vm_compute.
  - exists st', selectedPapers. split; [exact Hreq|]. rewrite Hlen. by vm_compute.
Defined.

(** With fewer than two papers selected the compare button does
    nothing: no request is made and no state is written. *)
Lemma handleCompare_needs_two (papers : list PaperAnalysis) (st : viewState) :
  (size (st_selectedIds st) < 2)%nat ↔ handleCompare_request papers st = None.
Proof.
  unfold handleCompare_request. case_decide; split; done.
Qed.

Section ComparisonOutcome.
Variable JSON_parse : jsstring → jsError + list ComparisonPoint.


Lemma handleGeminiError_region error :
  status error = Some (units "PERMISSION_DENIED") ∨ code error = Some 403 →
  handleGeminiError error = newError regionMessage.
Proof.
  intros Hregion. unfold handleGeminiError.
  assert (bool_decide (status error = Some (units "PERMISSION_DENIED"))
          || bool_decide (code error = Some 403) = true) as Hb.
  { destruct Hregion as [H|H];
      [rewrite (bool_decide_eq_true_2 _ H)|rewrite (bool_decide_eq_true_2 _ H)];
      by rewrite ?orb_true_r. }
  apply orb_true_iff in Hb as [Hb|Hb]; rewrite Hb, ?orb_true_r; done.
Qed.

(** X11. A rejection whose status is PERMISSION_DENIED or whose code is
    403 is shown in the comparison view as the region message, also when
    the error text mentions an xhr error or anything else, and the
    matrix is left as it was. *)
Theorem permission_denied_is_shown_as_region (st : viewState) error :
  status error = Some (units "PERMISSION_DENIED") ∨ code error = Some 403 →
  let st' :=
    handleCompare_settle st (comparePapers JSON_parse (ApiRejected error)) in
  st_error st' = Some regionMessage
  ∧ st_comparisonResult st' = st_comparisonResult st.
Proof.
  intros Hregion st'. subst st'. cbn [comparePapers].
  by rewrite handleGeminiError_region.
Qed.

(** X12. A response without text, or with an empty text, is thrown as
    an error inside the [try] block, passes the error handler unchanged
    and is shown as "No response from Gemini"; the parser is not
    called and the matrix is left as it was. *)
Theorem empty_response_is_reported (st : viewState) (text : option jsstring) :
  text = None ∨ text = Some [] →
  let st' :=
    handleCompare_settle st (comparePapers JSON_parse (ApiResolved text)) in
  st_error st' = Some (units "No response from Gemini")
  ∧ st_comparisonResult st' = st_comparisonResult st.
Proof. by intros [-> | ->]. Qed.
End ComparisonOutcome.

Lemma permission_denied_is_shown_as_region_witness :
  st_error
    (handleCompare_settle sampleState
       (comparePapers (λ _, inr [])
          (ApiRejected {| errorStr := units "{'code':403,'detail':'xhr error'}";
                          message := None; status := None; code := Some 403 |})))
  = Some regionMessage.
Proof.
  apply (permission_denied_is_shown_as_region (λ _, inr []) sampleState).
  right. reflexivity.
Defined.

Lemma empty_response_is_reported_witness :
  st_error
    (handleCompare_settle sampleState
       (comparePapers (λ _, inr []) (ApiResolved (Some []))))
  = Some (units "No response from Gemini").
Proof.
  apply (empty_response_is_reported (λ _, inr []) sampleState (Some [])).
  right. reflexivity.
Defined.

(** ** The data rows parse back *)

Lemma replaceUnit_cons c by_ x s :
  replaceUnit c by_ (x :: s)
  = (if (x =? c)%N then by_ else [x]) ++ replaceUnit c by_ s.
Proof. reflexivity. Qed.

Lemma readQuoted_escaped s : ∀ rest,
  head rest ≠ Some DQUOTE →
  readQuoted (replaceUnit DQUOTE [DQUOTE; DQUOTE] s ++ DQUOTE :: rest)
  = Some (s, rest).
Proof.
  induction s as [|x s IH]; intros rest Hrest.
  - cbn. destruct rest as [|c rest]; [done|].
    destruct (c =? DQUOTE)%N eqn:Hc; [|done].
    apply N.eqb_eq in Hc as ->. by destruct Hrest.
  - rewrite replaceUnit_cons. destruct (x =? DQUOTE)%N eqn:Hx.
    + apply N.eqb_eq in Hx as ->. cbn [app readQuoted].
      rewrite !N.eqb_refl. by rewrite (IH rest Hrest).
    + cbn [app readQuoted]. rewrite Hx. by rewrite (IH rest Hrest).
Qed.

Lemma quoted_field_aux (s rest : jsstring) :
  head rest ≠ Some DQUOTE →
  readField (quoted s ++ rest) = Some (s, rest).
Proof.
  intros Hrest. unfold quoted, readField. cbn [app].
  rewrite N.eqb_refl, <- app_assoc. by apply readQuoted_escaped.
Qed.

(** X13. Quoting can be undone: a reader that takes a quoted field, two
    double quotes standing for one, gets back exactly the text that was
    written and stops right after the closing quote, whatever the text
    holds (commas, line breaks, double quotes). *)
Theorem quoted_field_reads_back (s rest : jsstring) :
  head rest ≠ Some DQUOTE →
  readField (quoted s ++ rest) = Some (s, rest).
Proof.
  intros Hrest. unfold quoted, readField. cbn [app].
  rewrite N.eqb_refl, <- app_assoc. by apply readQuoted_escaped.
Qed.

Lemma quoted_field_reads_back_witness :
  readField (quoted quotedInsight ++ [COMMA] ++ quoted (units "next"))
  = Some (quotedInsight, [COMMA] ++ quoted (units "next")).
Proof. apply quoted_field_reads_back. cbn. discriminate. Defined.

Lemma length_quoted (s : jsstring) : (2 ≤ length (quoted s))%nat.
Proof. unfold quoted. cbn [app length]. rewrite length_app. cbn. lia. Qed.

Lemma length_join_quoted (fields : list jsstring) :
  (length fields ≤ length (join [COMMA] (quoted <$> fields)))%nat.
Proof.
  induction fields as [|x fields IH]; [done|].
  pose proof (length_quoted x) as Hx.
  destruct fields as [|y fields]; cbn [fmap list_fmap join length] in *.
  - lia.
  - rewrite !length_app. cbn [length]. lia.
Qed.

Lemma readRowFrom_quoted (fields : list jsstring) : ∀ fuel,
  fields ≠ [] → (length fields ≤ fuel)%nat →
  readRowFrom fuel (join [COMMA] (quoted <$> fields)) = Some fields.
Proof.
  induction fields as [|x fields IH]; intros fuel Hne Hfuel; [done|].
  destruct fuel as [|fuel]; [cbn in Hfuel; lia|].
  destruct fields as [|y fields]; cbn [fmap list_fmap join readRowFrom].
  - rewrite <- (app_nil_r (quoted x)).
    by rewrite quoted_field_aux by done.
  - rewrite quoted_field_aux by (cbn; discriminate).
    cbn [app]. rewrite N.eqb_refl.
    change (quoted y :: (quoted <$> fields)) with (quoted <$> (y :: fields)).
    rewrite IH; [done|done|]. cbn in *. lia.
Qed.

(** X14. Every data row of the file parses back: read as comma
    separated quoted fields, the row of a paper gives its title, its file
    name and, per dimension in matrix order, its insight with the two
    replacements made, and nothing else. *)
Theorem csv_row_reads_back (points : list ComparisonPoint) (p : PaperAnalysis) :
  readRow (csvRow points p)
  = Some (title p :: fileName p
            :: ((λ c, normalizedInsight c p) <$> points)).
Proof.
  unfold readRow, csvRow.
  assert (quoted (title p) :: quoted (fileName p)
            :: ((λ c, exportedInsight c p) <$> points)
          = quoted <$> (title p :: fileName p
                          :: ((λ c, normalizedInsight c p) <$> points))) as ->.
  { cbn [fmap list_fmap]. do 2 f_equal. by rewrite <- list_fmap_compose. }
  apply readRowFrom_quoted; [done|]. apply length_join_quoted.
Qed.

(** ** The exported text *)

Lemma removeDoubleStar_head c s :
  c ≠ STAR → ∃ t, removeDoubleStar (c :: s) = c :: t.
Proof.
  intros Hc. cbn. destruct s as [|c' s]; [eauto|].
  apply N.eqb_neq in Hc. rewrite Hc. cbn. eauto.
Qed.

Lemma removeDoubleStar_clean_upto n : ∀ s,
  (length s ≤ n)%nat → includes (removeDoubleStar s) [STAR; STAR] = false.
Proof.
  induction n as [|n IH]; intros [|c s] Hn; cbn in Hn; try done; [lia|].
  cbn [removeDoubleStar]. destruct s as [|c' s]; [cbn; by rewrite andb_false_r|].
  destruct ((c =? STAR)%N && (c' =? STAR)%N) eqn:Hpair.
  - apply IH. cbn in Hn. lia.
  - cbn [includes]. rewrite (IH (c' :: s)) by lia. rewrite orb_false_r.
    cbn [startsWith]. destruct (c =? STAR)%N eqn:Hc; [|done].
    cbn in Hpair. apply N.eqb_neq in Hpair.
    destruct (removeDoubleStar_head c' s Hpair) as [t ->]. cbn.
    apply N.eqb_neq in Hpair. by rewrite Hpair.
Qed.

Lemma includes_stars_hyphen_replaced s :
  includes (replaceUnit HYPHEN [BULLET] s) [STAR; STAR]
  = includes s [STAR; STAR].
Proof.
  assert (∀ x, ∃ y, (if (x =? HYPHEN)%N then [BULLET] else [x]) = [y]
                    ∧ (y =? STAR)%N = (x =? STAR)%N) as Hunit.
  { intros x. destruct (x =? HYPHEN)%N eqn:Hx; [|eauto].
    apply N.eqb_eq in Hx as ->. by exists BULLET. }
  induction s as [|x s IH]; [done|].
  rewrite replaceUnit_cons. destruct (Hunit x) as (y & -> & Hy).
  cbn [app includes]. rewrite IH. f_equal.
  cbn [startsWith]. rewrite Hy. f_equal.
  destruct s as [|x' s]; [done|].
  rewrite replaceUnit_cons. destruct (Hunit x') as (y' & -> & Hy').
  cbn. by rewrite Hy'.
Qed.

(** X15. The insight text that the export writes never holds a hyphen
    and never holds two stars in a row: removing the pairs of stars
    from left to right leaves no pair behind. *)
Theorem exported_text_has_no_hyphen_no_star_pair
    (c : ComparisonPoint) (p : PaperAnalysis) :
  (HYPHEN ∉ normalizedInsight c p)
  ∧ includes (normalizedInsight c p) [STAR; STAR] = false.
Proof.
  unfold normalizedInsight. split.
  - unfold replaceUnit. rewrite list_elem_of_bind. intros (x & Hy & _).
    destruct (x =? HYPHEN)%N eqn:Hx.
    + apply list_elem_of_singleton in Hy. discriminate Hy.
    + apply list_elem_of_singleton in Hy as <-. by rewrite N.eqb_refl in Hx.
  - rewrite includes_stars_hyphen_replaced.
    by apply (removeDoubleStar_clean_upto (length (insightOf c (id p)))).
Qed.

(** ** Lines and pieces *)

Lemma split_nonempty sep s : ∃ piece pieces, split sep s = piece :: pieces.
Proof.
  induction s as [|c s (piece & pieces & IH)]; cbn; [eauto|].
  destruct (c =? sep)%N; [eauto|]. rewrite IH. eauto.
Qed.

Lemma split_app sep a b :
  split sep (a ++ sep :: b) = split sep a ++ split sep b.
Proof.
  induction a as [|c a IH]; cbn.
  - by rewrite N.eqb_refl.
  - destruct (c =? sep)%N; [by rewrite IH|]. rewrite IH.
    by destruct (split_nonempty sep a) as (piece & pieces & ->).
Qed.

Lemma split_without_separator sep s : sep ∉ s → split sep s = [s].
Proof.
  induction s as [|c s IH]; [done|]. rewrite not_elem_of_cons. intros [Hc Hs].
  cbn. rewrite IH by done.
  by rewrite (proj2 (N.eqb_neq c sep)) by congruence.
Qed.

Lemma nodesOf_renderContent value :
  nodesOf (renderContent value)
  = renderLine <$> filter (λ line, trim line ≠ []) (split LF value).
Proof. by destruct value. Qed.

(** X16. Lines are rendered one by one: the nodes of two texts joined
    by a line break are the nodes of the first followed by the nodes of
    the second, so that a blank line, or a line break at either end,
    adds nothing. *)
Theorem renderContent_line_by_line (a b : jsstring) :
  renderContent (a ++ [LF] ++ b)
  = Lines (nodesOf (renderContent a) ++ nodesOf (renderContent b)).
Proof.
  rewrite !nodesOf_renderContent, <- fmap_app, <- filter_app.
  cbn [app]. rewrite <- split_app.
  by destruct a.
Qed.

Lemma splitBoldFrom_without_star fuel : ∀ pending s,
  STAR ∉ s → splitBoldFrom fuel pending s = [reverse pending ++ s].
Proof.
  induction fuel as [|fuel IH]; intros pending [|c s] Hs; cbn [splitBoldFrom];
    rewrite ?app_nil_r; try done.
  apply not_elem_of_cons in Hs as [Hc Hs].
  assert (matchBold (c :: s) = None) as ->.
  { unfold matchBold. cbn [startsWith].
    by rewrite (proj2 (N.eqb_neq c STAR)) by congruence. }
  rewrite IH by done. by rewrite reverse_cons, <- app_assoc.
Qed.

Lemma trimStart_suffix s : trimStart s `suffix_of` s.
Proof.
  induction s as [|c s IH]; cbn; [done|].
  destruct (isWhiteSpace c || isLineTerminator c); [|done].
  by apply suffix_cons_r.
Qed.

Lemma elem_of_trim x s : x ∈ trim s → x ∈ s.
Proof.
  unfold trim. rewrite elem_of_reverse. intros Hx.
  pose proof (trimStart_suffix (reverse (trimStart s))) as [k1 H1].
  pose proof (trimStart_suffix s) as [k2 H2].
  assert (x ∈ reverse (trimStart s)) as Hx'
    by (rewrite H1, elem_of_app; auto).
  rewrite elem_of_reverse in Hx'. rewrite H2, elem_of_app. auto.
Qed.

Lemma renderPart_without_star part : STAR ∉ part → renderPart part = Span part.
Proof.
  intros Hpart. unfold renderPart. destruct part as [|c part]; [done|].
  apply not_elem_of_cons in Hpart as [Hc _]. cbn [startsWith].
  by rewrite (proj2 (N.eqb_neq c STAR)) by congruence.
Qed.

(** X17. A line that holds no star is shown whole as one plain span:
    as a bullet with the text after the marker when, trimmed, it starts
    with a hyphen and a space, as a paragraph with its text otherwise. *)
Theorem line_without_star_is_plain (line : jsstring) :
  STAR ∉ line →
  renderLine line
  = if startsWith (trim line) (units "- ")
    then BulletItem [Span (drop 2 (trim line))]
    else Paragraph [Span line].
Proof.
  intros Hline.
  assert (STAR ∉ trim line) as Htrim by (intros H; by apply elem_of_trim in H).
  unfold renderLine, splitBold.
  assert (startsWith (trim line) (units "* ") = false) as ->.
  { assert (units "* " = [STAR; 32%N]) as -> by by vm_compute.
    destruct (trim line) as [|c t]; [done|].
    apply not_elem_of_cons in Htrim as [Hc _]. cbn [startsWith].
    by rewrite (proj2 (N.eqb_neq c STAR)) by congruence. }
  rewrite orb_false_r. destruct (startsWith (trim line) (units "- ")).
  - assert (STAR ∉ drop 2 (trim line)) as Hclean.
    { intros H. apply Htrim.
      destruct (suffix_drop (trim line) 2) as [k ->].
      rewrite elem_of_app. auto. }
    rewrite splitBoldFrom_without_star by done. cbn.
    by rewrite renderPart_without_star.
  - rewrite splitBoldFrom_without_star by done. cbn.
    by rewrite renderPart_without_star.
Qed.

Lemma line_without_star_is_plain_witness :
  renderLine (units "  - sample size n=40 ")
  = BulletItem [Span (units "sample size n=40")].
Proof.
  rewrite line_without_star_is_plain by decide_closed. by vm_compute.
Defined.

Lemma splitBoldFrom_captures fuel : ∀ pending s (i : nat) piece,
  splitBoldFrom fuel pending s !! (2 * i + 1)%nat = Some piece →
  ∃ body, piece = [STAR; STAR] ++ body ++ [STAR; STAR]
          ∧ Forall (λ c, isLineTerminator c = false) body.
Proof.
  induction fuel as [|fuel IH]; intros pending [|c s] i piece;
    cbn [splitBoldFrom].
  - by replace (2 * i + 1)%nat with (S (2 * i)) by lia.
  - by replace (2 * i + 1)%nat with (S (2 * i)) by lia.
  - by replace (2 * i + 1)%nat with (S (2 * i)) by lia.
  - destruct (matchBold (c :: s)) as [[m rest]|] eqn:Hm; [|apply IH].
    destruct i as [|i].
    + intros [= <-]. by apply matchBold_spec in Hm as (_ & body & -> & ?); eauto.
    + replace (2 * S i + 1)%nat with (S (S (2 * i + 1))) by lia. apply IH.
Qed.

Lemma renderPart_capture body :
  renderPart ([STAR; STAR] ++ body ++ [STAR; STAR]) = Strong body.
Proof.
  unfold renderPart, endsWith.
  rewrite !reverse_app. cbn [reverse app startsWith].
  rewrite <- !app_assoc. cbn [app startsWith]. rewrite !N.eqb_refl. cbn [andb].
  f_equal. unfold slice. cbn [length]. rewrite length_app. cbn [length].
  replace (Z.of_nat (S (S (length body + 2)))) with (Z.of_nat (length body) + 4)
    by lia.
  cbn [Z.ltb Z.compare]. rewrite Z.min_l, Z.max_l by lia.
  replace (Z.to_nat (Z.of_nat (length body) + 4 + -2 - 2)) with (length body)
    by lia.
  change (drop (Z.to_nat 2) (STAR :: STAR :: body ++ [STAR; STAR]))
    with (body ++ [STAR; STAR]).
  by rewrite take_app_length.
Qed.

(** X18. The emphasis split loses nothing and marks only real pairs:
    the pieces of a line, put together again, are the line, and every
    second piece is a pair of stars, a body without line terminator and
    a closing pair of stars, shown as an emphasized span holding exactly
    the body. *)
Theorem emphasis_pieces (s : jsstring) :
  concat (splitBold s) = s
  ∧ ∀ (i : nat) piece,
      splitBold s !! (2 * i + 1)%nat = Some piece →
      ∃ body, piece = [STAR; STAR] ++ body ++ [STAR; STAR]
              ∧ Forall (λ c, isLineTerminator c = false) body
              ∧ renderPart piece = Strong body.
Proof.
  split; [apply splitBold_concat|]. intros i piece Hpiece.
  apply splitBoldFrom_captures in Hpiece as (body & -> & Hbody).
  exists body. split_and!; [done..|]. apply renderPart_capture.
Qed.

Lemma emphasis_pieces_witness :
  ∃ body, units "**n=500**" = [STAR; STAR] ++ body ++ [STAR; STAR]
          ∧ renderPart (units "**n=500**") = Strong body.
Proof.
  destruct (emphasis_pieces (units "with **n=500** people")) as [_ H].
  destruct (H 0%nat (units "**n=500**")) as (body & Hshape & _ & Hshown).
  - by vm_compute.
  - exists body. split; assumption.
Defined.

(** ** Uploading a file *)

Section FileFacts.
Variable toLowerCase : jsstring → jsstring.
Variable megabytes : Z → jsstring.

(** X19. A file is sent for analysis only when it has at most 6 MiB
    (6291456 bytes) and is a PDF or a text by its declared type or by
    its lowercased name; it is sent as [application/pdf] whenever either
    PDF test holds, also with a declared type [text/plain], and as
    [text/plain] otherwise. *)
Theorem accepted_file_is_small_and_typed (file : File) (mimeType : jsstring) :
  handleFileChange toLowerCase megabytes (Some file) = FileAccepted mimeType →
  file_size file ≤ 6291456
  ∧ ((mimeType = units "application/pdf"
      ∧ (file_type file = units "application/pdf"
         ∨ endsWith (toLowerCase (file_name file)) (units ".pdf") = true))
     ∨ (mimeType = units "text/plain"
        ∧ file_type file ≠ units "application/pdf"
        ∧ endsWith (toLowerCase (file_name file)) (units ".pdf") = false
        ∧ (file_type file = units "text/plain"
           ∨ endsWith (toLowerCase (file_name file)) (units ".txt") = true))).
Proof.
  unfold handleFileChange, MAX_SIZE_MB.
  destruct (6 * 1024 * 1024 <? file_size file) eqn:Hsize; [done|].
  apply Z.ltb_ge in Hsize.
  destruct (decide (file_type file = units "application/pdf")) as [Hp|Hp].
  - rewrite (bool_decide_eq_true_2 _ Hp). cbn. intros [= <-]. split; [lia|auto].
  - rewrite (bool_decide_eq_false_2 _ Hp). cbn [orb].
    destruct (endsWith (toLowerCase (file_name file)) (units ".pdf")) eqn:Hext.
    + cbn. intros [= <-]. split; [lia|auto].
    + destruct (decide (file_type file = units "text/plain")) as [Ht|Ht].
      * rewrite (bool_decide_eq_true_2 _ Ht). cbn. intros [= <-].
        split; [lia|]. right. auto.
      * rewrite (bool_decide_eq_false_2 _ Ht). cbn [orb negb andb].
        destruct (endsWith (toLowerCase (file_name file)) (units ".txt")) eqn:Htxt;
          [|done].
        cbn. intros [= <-]. split; [lia|]. right. auto.
Qed.

(** X20. The size is checked first: a file of more than 6291456 bytes
    is refused with the size message whatever its type and name, and no
    MIME type is chosen for it. *)
Theorem oversized_file_is_refused_first (file : File) :
  6291456 < file_size file →
  handleFileChange toLowerCase megabytes (Some file)
  = FileRejected
      (units "File is too large (" ++ megabytes (file_size file)
       ++ units "MB). Please upload a file smaller than 6MB.").
Proof.
  intros Hsize. unfold handleFileChange, MAX_SIZE_MB.
  by rewrite (proj2 (Z.ltb_lt _ _)) by lia.
Qed.
End FileFacts.

Lemma accepted_file_is_small_and_typed_witness :
  handleFileChange asciiLower (λ _, units "0.0") (Some mislabelledFile)
  = FileAccepted (units "application/pdf")
  ∧ file_size mislabelledFile ≤ 6291456.
Proof.
  assert (handleFileChange asciiLower (λ _, units "0.0") (Some mislabelledFile)
          = FileAccepted (units "application/pdf")) as H by by vm_compute.
  split; [exact H|].
  by destruct (accepted_file_is_small_and_typed asciiLower (λ _, units "0.0")
                 mislabelledFile (units "application/pdf") H) as [Hsize _].
Defined.

Lemma oversized_file_is_refused_first_witness :
  handleFileChange asciiLower (λ _, units "6.7") (Some hugeFile)
  = FileRejected
      (units "File is too large (6.7MB). Please upload a file smaller than 6MB.").
Proof.
  rewrite (oversized_file_is_refused_first asciiLower (λ _, units "6.7") hugeFile)
    by by vm_compute.
  by vm_compute.
Defined.

(** X21. From the data URL that the file reader gives, a header, a
    comma and the payload, the handler sends exactly the payload, when
    neither the header nor the payload holds a comma (the base64
    alphabet has none); from a text without comma nothing is taken. *)
Theorem base64Data_is_the_payload (header payload : jsstring) :
  COMMA ∉ header → COMMA ∉ payload →
  base64Data (header ++ [COMMA] ++ payload) = Some payload
  ∧ base64Data header = None.
Proof.
  intros Hheader Hpayload. unfold base64Data. cbn [app].
  by rewrite split_app, !split_without_separator.
Qed.

Lemma base64Data_is_the_payload_witness :
  base64Data (units "data:application/pdf;base64,JVBERi0xLjQK")
  = Some (units "JVBERi0xLjQK").
Proof.
  assert (units "data:application/pdf;base64,JVBERi0xLjQK"
          = units "data:application/pdf;base64" ++ [COMMA] ++ units "JVBERi0xLjQK")
    as -> by by vm_compute.
  apply base64Data_is_the_payload; decide_closed.
Defined.

(** ** Recommendations *)

Lemma labels_differ : citedLabel ≠ externalLabel.
Proof. decide_closed. Qed.

(** X22. The two sections of the discovery page share no
    recommendation and keep the order of the answer; a recommendation is
    in the first section exactly when its category is the cited label,
    in the second exactly when it is the external label, and one with
    any other category is in neither. *)
Theorem groupedRecs_partition (recommendations : list Recommendation) :
  let '(cited, external) := groupedRecs (Some recommendations) in
  cited `sublist_of` recommendations
  ∧ external `sublist_of` recommendations
  ∧ (∀ r, r ∈ cited ↔ r ∈ recommendations ∧ rec_category r = citedLabel)
  ∧ (∀ r, r ∈ external ↔ r ∈ recommendations ∧ rec_category r = externalLabel)
  ∧ (∀ r, ¬ (r ∈ cited ∧ r ∈ external))
  ∧ cited ++ external
      ++ filter (λ r, rec_category r ≠ citedLabel ∧ rec_category r ≠ externalLabel)
           recommendations
    ≡ₚ recommendations.
Proof.
  unfold groupedRecs. cbv beta iota. split_and!.
  - apply sublist_filter.
  - apply sublist_filter.
  - intros r. rewrite list_elem_of_filter. tauto.
  - intros r. rewrite list_elem_of_filter. tauto.
  - intros r. rewrite !list_elem_of_filter. intros [[H1 _] [H2 _]].
    rewrite H1 in H2. by apply labels_differ.
  - induction recommendations as [|r recs IH]; [done|].
    rewrite !filter_cons.
    destruct (decide (rec_category r = citedLabel)) as [Hc|Hc].
    + rewrite decide_False by (rewrite Hc; apply labels_differ).
      rewrite decide_False by tauto. cbn. by rewrite IH.
    + destruct (decide (rec_category r = externalLabel)) as [He|He].
      * rewrite decide_False by tauto. cbn [app].
        rewrite <- Permutation_middle. by rewrite IH.
      * rewrite decide_True by tauto.
        rewrite app_assoc, <- Permutation_middle, <- app_assoc. by rewrite IH.
Qed.

(** Of three recommendations, the second cited, the first external and
    the third with another category, the page shows two. *)
Lemma groupedRecs_sample :
  (λ '(cited, external), (rec_title <$> cited, rec_title <$> external))
    (groupedRecs (Some sampleRecs))
  = ([units "B"], [units "A"]).
Proof. by vm_compute. Qed.
